(** * Quest: exhaustive IPv4 preimage search (extension/unhash_ip.py)

    A shallow embedding of [unhash_ip.py] and the properties of its
    scanner ([crack_range]) and of its two-phase driver ([main]).

    Python values are modelled as follows.
    - [int] is [Z]; [range] is a list of [Z]; [f"{a}"] on an [int] is
      stdpp's [pretty] (decimal, with a leading minus sign).
    - the [str] values the program builds are texts of digits, dots and
      letters; they are [string]s, one character per code point.  The
      argument of [compute_hash], which may be any [str], is the list of
      its code points.
    - the [dict] [results]/[all_results] is a [gmap string string], the
      [set] [remaining]/[targets] a [gset string]; the literal
      [TARGET_HASHES], whose iteration order is observable in the report,
      is an association list.
    - [print] appends one entry to a console, a [list string].
    - [return] and [break] inside [for] loops are a two-constructor
      control-flow result, [Next] or [Stop].
    - [executor.submit(crack_range, start, end, remaining)] passes the
      set object [remaining] itself.  The process pool pickles the
      arguments of a queued call some time after [submit], and [main]
      updates the set in place meanwhile, so a worker runs with the value
      the set has when its call is pickled; the loop of Phase 2 keeps the
      values the set has had. *)

From Stdlib Require Import ZArith List Ascii String Lia.
From stdpp Require Import base numbers list list_numbers strings gmap sets pretty.
Import ListNotations.
Open Scope Z_scope.

(** ** hashlib.sha1: FIPS 180-4 SHA-1 over a list of bytes *)

Module SHA1.
Definition w32 (x : Z) : Z := Z.land x 0xFFFFFFFF.
Definition rotl (n x : Z) : Z :=
  w32 (Z.lor (Z.shiftl x n) (Z.shiftr x (32 - n))).
Definition add32 (x y : Z) : Z := w32 (x + y).

(** The [n] low bytes of [x], most significant first. *)
Definition be_bytes (n : nat) (x : Z) : list Z :=
  (λ i, Z.land (Z.shiftr x (8 * Z.of_nat i)) 0xFF) <$> rev (seq 0 n).

(** Message, one bit, zeros up to 56 mod 64, then the bit length. *)
Definition pad (msg : list Z) : list Z :=
  let l := Z.of_nat (length msg) in
  let k := Z.to_nat ((55 - l) mod 64) in
  msg ++ [0x80] ++ replicate k 0 ++ be_bytes 8 (8 * l).

Definition be_word (bs : list Z) : Z :=
  fold_left (λ acc b, Z.lor (Z.shiftl acc 8) b) bs 0.

Fixpoint chunks {A} (fuel n : nat) (l : list A) : list (list A) :=
  match fuel, l with
  | O, _ | _, [] => []
  | S fuel', _ => take n l :: chunks fuel' n (drop n l)
  end.

Definition f_round (t b c d : Z) : Z :=
  if t <? 20 then Z.lor (Z.land b c) (Z.land (Z.lxor b 0xFFFFFFFF) d)
  else if t <? 40 then Z.lxor (Z.lxor b c) d
  else if t <? 60 then Z.lor (Z.lor (Z.land b c) (Z.land b d)) (Z.land c d)
  else Z.lxor (Z.lxor b c) d.

Definition k_round (t : Z) : Z :=
  if t <? 20 then 0x5A827999
  else if t <? 40 then 0x6ED9EBA1
  else if t <? 60 then 0x8F1BBCDC
  else 0xCA62C1D6.

Record regs := Regs { ra : Z; rb : Z; rc : Z; rd : Z; re : Z }.

(** One of the 80 rounds.  [win] holds the message schedule words
    [w t .. w (t+15)]; the round consumes [w t] and appends [w (t+16)]. *)
Definition round (t : Z) (st : regs * list Z) : regs * list Z :=
  let '(Regs a b c d e, win) := st in
  let w := nth 0 win 0 in
  let w16 := rotl 1 (Z.lxor (Z.lxor (Z.lxor (nth 13 win 0) (nth 8 win 0))
                                    (nth 2 win 0)) w) in
  let tmp := add32 (add32 (add32 (add32 (rotl 5 a) (f_round t b c d)) e)
                          (k_round t)) w in
  (Regs tmp a (rotl 30 b) c d, tl win ++ [w16]).

Definition compress (h : regs) (block : list Z) : regs :=
  let ws := be_word <$> chunks 16 4 block in
  let '(Regs a b c d e, _) :=
    fold_left (λ st t, round (Z.of_nat t) st) (seq 0 80) (h, ws) in
  Regs (add32 (ra h) a) (add32 (rb h) b) (add32 (rc h) c)
       (add32 (rd h) d) (add32 (re h) e).

Definition init : regs :=
  Regs 0x67452301 0xEFCDAB89 0x98BADCFE 0x10325476 0xC3D2E1F0.

Definition digest (msg : list Z) : regs :=
  let p := pad msg in
  fold_left compress (chunks (length p) 64 p) init.

Definition hex_char (x : Z) : ascii :=
  match x with
  | 0 => "0" | 1 => "1" | 2 => "2" | 3 => "3" | 4 => "4" | 5 => "5"
  | 6 => "6" | 7 => "7" | 8 => "8" | 9 => "9" | 10 => "a" | 11 => "b"
  | 12 => "c" | 13 => "d" | 14 => "e" | _ => "f"
  end%char.

Definition hex_word (x : Z) : list ascii :=
  (λ i, hex_char (Z.land (Z.shiftr x (4 * Z.of_nat i)) 0xF)) <$> rev (seq 0 8).

Definition hexdigest (msg : list Z) : string :=
  let '(Regs a b c d e) := digest msg in
  string_of_list_ascii
    (hex_word a ++ hex_word b ++ hex_word c ++ hex_word d ++ hex_word e).
End SHA1.

(** ** Python built-ins used by the program *)

(** [range(start, stop)]: empty as soon as [stop <= start]. *)
Definition range (start stop : Z) : list Z := seqZ start (stop - start).

(** [range(start, stop, step)] for a positive [step]. *)
Definition range_step (start stop step : Z) : list Z :=
  (λ i, start + step * i) <$> seqZ 0 ((stop - start + step - 1) `div` step).

(** [s * n] on a string. *)
Fixpoint str_mul (s : string) (n : nat) : string :=
  match n with
  | O => ""
  | S n' => s +:+ str_mul s n'
  end.

(** The one-character string written [\n] in the source. *)
Definition nl : string := String (ascii_of_nat 10) "".

(** Outcome of a loop body, and of a loop: fall through to the next
    iteration, or leave the loop ([return], [break]). *)
Inductive flow (S : Type) : Type :=
| Next (s : S)
| Stop (s : S).
Arguments Next {S} s.
Arguments Stop {S} s.

Definition flow_state {S} (r : flow S) : S :=
  match r with Next s | Stop s => s end.

Definition flow_map {S T} (f : S → T) (r : flow S) : flow T :=
  match r with Next s => Next (f s) | Stop s => Stop (f s) end.

(** Run [k] after [r] unless [r] already left the loop. *)
Definition flow_then {S} (r : flow S) (k : S → flow S) : flow S :=
  match r with Next s => k s | Stop s => Stop s end.

(** [for x in xs: body]. *)
Fixpoint for_each {A S} (xs : list A) (body : A → S → flow S) (s : S) : flow S :=
  match xs with
  | [] => Next s
  | x :: xs' => flow_then (body x s) (for_each xs' body)
  end.

(** Exceptions the program can raise, and results that may raise. *)
Inductive exn : Type :=
| KeyError (key : string)
| UnicodeEncodeError (start : nat).

Inductive result (A : Type) : Type :=
| Ok (a : A)
| Raise (e : exn).
Arguments Ok {A} a.
Arguments Raise {A} e.

(** [d[k]] on a dict. *)
Definition getitem (d : gmap string string) (k : string) : result string :=
  match d !! k with
  | Some v => Ok v
  | None => Raise (KeyError k)
  end.

(** ** Text and digests, lines 20-22 and 32 *)

(** The surrogate code points: [str.encode('utf-8')] cannot encode them. *)
Definition is_surrogate (c : N) : bool :=
  ((0xD800 <=? c) && (c <=? 0xDFFF))%N.

(** The UTF-8 bytes of one code point. *)
Definition utf8_char (c : N) : list Z :=
  let z := Z.of_N c in
  if z <? 0x80 then [z]
  else if z <? 0x800 then
    [Z.lor 0xC0 (Z.shiftr z 6); Z.lor 0x80 (Z.land z 0x3F)]
  else if z <? 0x10000 then
    [Z.lor 0xE0 (Z.shiftr z 12); Z.lor 0x80 (Z.land (Z.shiftr z 6) 0x3F);
     Z.lor 0x80 (Z.land z 0x3F)]
  else
    [Z.lor 0xF0 (Z.shiftr z 18); Z.lor 0x80 (Z.land (Z.shiftr z 12) 0x3F);
     Z.lor 0x80 (Z.land (Z.shiftr z 6) 0x3F); Z.lor 0x80 (Z.land z 0x3F)].

(** [s.encode('utf-8')] on the code points from position [i] on: it
    raises at the first surrogate, with its position. *)
Fixpoint encode_from (i : nat) (s : list N) : result (list Z) :=
  match s with
  | [] => Ok []
  | c :: s' =>
      if is_surrogate c then Raise (UnicodeEncodeError i)
      else match encode_from (S i) s' with
           | Ok bs => Ok (utf8_char c ++ bs)
           | Raise e => Raise e
           end
  end.

Definition encode_utf8 (s : list N) : result (list Z) := encode_from 0 s.

(** [compute_hash], lines 20-22:
    [hashlib.sha1(ip_str.encode('utf-8')).hexdigest()]. *)
Definition compute_hash (ip_str : list N) : result string :=
  match encode_utf8 ip_str with
  | Ok bs => Ok (SHA1.hexdigest bs)
  | Raise e => Raise e
  end.

(** The code points of a text. *)
Definition code_points (s : string) : list N :=
  N_of_ascii <$> list_ascii_of_string s.

(** Line 32, [hashlib.sha1(ip.encode('utf-8')).hexdigest()], on a text:
    its code points are below 256, none is a surrogate, and the encoding
    does not raise. *)
Definition sha1_hex (s : string) : string :=
  SHA1.hexdigest (code_points s ≫= utf8_char).

(** ** The target table, lines 7-16 *)

Definition TARGET_HASHES : list (string * string) :=
  [ ("977b6967a5717fef69c2772af31accceaa53cc73", "Device IP");
    ("f2bc41c32c7265b49cfa857f24b09529a549641f", "Default Gateway/DHCP");
    ("cf764b40a447e2eebf923d1c3a4b362b1a17f5ca", "PublicIP field");
    ("0377858af0fb16e14b0676f189bf0466a98a08eb", "Adapter 1 IP");
    ("4d417d8be419a399a654fcbc028b9fba413f33cc", "Adapter 2 IP");
    ("29c4d1aff3d55774cdd2ade49e0de895072235fd", "Adapter 3 IP");
    ("6df3b7bad2e09da372d2e1e69eafd67539736549", "Adapter 4 IP");
    ("df8de336853f75094de716688a3e1d6ad9839d95", "Adapter 5 IP") ].

(** [set(table.keys())]. *)
Definition keys (table : list (string * string)) : gset string :=
  list_to_set (fst <$> table).

(** ** The candidate string, line 31: [f"{a}.{b}.{c}.{d}"] *)

Definition ip_str (a b c d : Z) : string :=
  pretty a +:+ "." +:+ pretty b +:+ "." +:+ pretty c +:+ "." +:+ pretty d.

(** The candidates in the order in which the four nested loops of
    [crack_range] (lines 27-31) reach them when nothing stops the scan. *)
Definition candidates (start_a end_a : Z) : list string :=
  a ← range start_a end_a; b ← range 0 256; c ← range 0 256;
  d ← range 0 256; [ip_str a b c d].

(** ** The scanner, lines 24-40 *)

(** What a call of [crack_range] leaves behind: the returned dict, the
    lines it printed, and (ghost) the strings it passed to the hash
    function, oldest first. *)
Record scan_state : Type := ScanState {
  results : gmap string string;
  out : list string;
  hashed : list string;
}.

Definition scan_init : scan_state := ScanState ∅ [] [].

Definition scan_print (line : string) (s : scan_state) : scan_state :=
  ScanState (results s) (out s ++ [line]) (hashed s).

(** A submitted call [executor.submit(crack_range, start, end, remaining)]:
    its two bounds.  The third argument is the set object [remaining]
    itself, the same for every call; no copy of it is taken. *)
Record future : Type := Future {
  f_start : Z;
  f_end : Z;
}.

(** The variables of [main]: [all_results], [remaining], the list
    [futures] of submitted calls, and the console. *)
Record run_state : Type := RunState {
  all_results : gmap string string;
  remaining : gset string;
  futures : list future;
  console : list string;
}.

Definition run_print (line : string) (st : run_state) : run_state :=
  RunState (all_results st) (remaining st) (futures st) (console st ++ [line]).

Definition run_prints (lines : list string) (st : run_state) : run_state :=
  RunState (all_results st) (remaining st) (futures st) (console st ++ lines).

(** The Phase 2 loop with the process pool: the variables of [main],
    and (ghost) the values the set object [remaining] has had, after 0,
    1, 2, ... merges of Phase 2, and the set each worker whose result
    was merged had received, in the order of the merges. *)
Record pool_state : Type := PoolState {
  p_run : run_state;
  p_seen : list (gset string);
  p_ran : list (gset string);
}.

Definition pool_init (st : run_state) : pool_state :=
  PoolState st [remaining st] [].

(** The set a worker receives when the pool pickles its call after [m]
    merges; a call not pickled by now is pickled now. *)
Definition pickled_set (ps : pool_state) (m : nat) : gset string :=
  default (remaining (p_run ps)) (p_seen ps !! m).

(** Lines 76-77 and 96-97:
    [all_results.update(results); remaining -= set(results.keys())]. *)
Definition merge (st : run_state) (res : gmap string string) : run_state :=
  RunState (res ∪ all_results st) (remaining st ∖ dom res)
           (futures st) (console st).

(** Lines 52-66. *)
Definition common_ranges : list (Z * Z) :=
  [ (10, 11); (172, 173); (192, 193); (1, 2); (8, 9); (20, 21); (40, 41);
    (52, 53); (13, 14); (104, 105); (157, 158); (168, 169); (207, 208) ].

(** Lines 105-109, one table row. *)
Definition report_row (all : gmap string string) (row : string * string)
    (lines : list string) : result (list string) :=
  let '(h, desc) := row in
  if decide (h ∈ dom all) then
    match getitem all h with
    | Ok ip => Ok (lines ++ ["  " +:+ desc +:+ ": " +:+ ip])
    | Raise e => Raise e
    end
  else Ok (lines ++ ["  " +:+ desc +:+ ": NOT FOUND (hash: " +:+ h +:+ ")"]).

(** Lines 105-109: [for h, desc in TARGET_HASHES.items(): ...]. *)
Fixpoint report (table : list (string * string)) (all : gmap string string)
    (lines : list string) : result (list string) :=
  match table with
  | [] => Ok lines
  | row :: table' =>
      match report_row all row lines with
      | Ok lines' => report table' all lines'
      | Raise e => Raise e
      end
  end.

Section Cracker.
(** [hashlib.sha1(s.encode('utf-8')).hexdigest()]; [compute_hash] is the
    instance the program runs with. *)
Variable digest : string → string.

(** Lines 31-38, the body of the innermost loop. *)
Definition crack_body (targets : gset string)
    (target_dict : option (gmap string string))
    (a b c d : Z) (s : scan_state) : flow scan_state :=
  let ip := ip_str a b c d in
  let h := digest ip in
  let s := ScanState (results s) (out s) (hashed s ++ [ip]) in
  if decide (h ∈ targets) then
    let s := ScanState (<[h := ip]> (results s)) (out s) (hashed s) in
    let desc :=
      match target_dict with
      | Some td => if decide (td = ∅) then h else default "Unknown" (td !! h)
      | None => h
      end in
    let s := scan_print ("  FOUND: " +:+ ip +:+ " -> " +:+ h
                           +:+ " (" +:+ desc +:+ ")") s in
    if decide (size (results s) = size targets) then Stop s else Next s
  else Next s.

(** Lines 27-39, the body of the outermost loop. *)
Definition crack_octet (targets : gset string)
    (target_dict : option (gmap string string))
    (a : Z) (s : scan_state) : flow scan_state :=
  flow_then
    (for_each (range 0 256) (λ b,
       for_each (range 0 256) (λ c,
         for_each (range 0 256) (λ d,
           crack_body targets target_dict a b c d))) s)
    (λ s, Next (scan_print ("  Completed range " +:+ pretty a +:+ ".x.x.x") s)).

(** Lines 24-40.  Both exits return [results]. *)
Definition crack_range (start_a end_a : Z) (targets : gset string)
    (target_dict : option (gmap string string)) : scan_state :=
  flow_state
    (for_each (range start_a end_a) (crack_octet targets target_dict)
              scan_init).

(** [multiprocessing.cpu_count()]. *)
Variable num_cpus : Z.

(** [as_completed(futures)] together with the pool's timing: the
    submitted futures in the order in which the pool finishes them, each
    with the number of merges [main] had made when the pool pickled the
    arguments of its call. *)
Variable as_completed : list future → list (future * nat).

(** [future.result()]: the dict returned by the submitted call, run by a
    worker that received the set [targets]. *)
Definition future_result (f : future) (targets : gset string)
    : gmap string string :=
  results (crack_range (f_start f) (f_end f) targets None).

(** Lines 71-77, one iteration of the Phase 1 loop. *)
Definition phase1_body (rg : Z * Z) (st : run_state) : flow run_state :=
  let '(start, end_) := rg in
  if decide (remaining st = ∅) then Stop st
  else
    let st := run_print ("  Scanning " +:+ pretty start +:+ ".0.0.0 - "
                           +:+ pretty (end_ - 1) +:+ ".255.255.255...") st in
    let r := crack_range start end_ (remaining st) None in
    let st := run_prints (out r) st in
    Next (merge st (results r)).

Definition phase1_loop (ranges : list (Z * Z)) (st : run_state) : run_state :=
  flow_state (for_each ranges phase1_body st).

(** Lines 90-92: the calls submitted, each with the set [remaining]. *)
Definition submit_all : list future :=
  (λ start, Future start (Z.min (start + 16) 256)) <$> range_step 0 256 16.

(** Lines 94-100, one iteration of the Phase 2 loop, for a future whose
    call was pickled after [m] merges. *)
Definition phase2_body (c : future * nat) (ps : pool_state) : flow pool_state :=
  let '(f, m) := c in
  let targets := pickled_set ps m in
  let st := merge (p_run ps) (future_result f targets) in
  let seen := p_seen ps ++ [remaining st] in
  let ran := p_ran ps ++ [targets] in
  if decide (remaining st = ∅)
  then Stop (PoolState (run_print "All hashes cracked!" st) seen ran)
  else Next (PoolState st seen ran).

Definition phase2_pool (completed : list (future * nat)) (st : run_state)
    : pool_state :=
  flow_state (for_each completed phase2_body (pool_init st)).

Definition phase2_loop (completed : list (future * nat)) (st : run_state)
    : run_state :=
  p_run (phase2_pool completed st).

(** Lines 79-92, up to the end of the submission loop.  The lines the
    workers print go to their own processes' output and are not part
    of this console. *)
Definition phase2_dispatch (st : run_state) : run_state :=
  let st := run_prints
    [ nl +:+ "Phase 2: Full scan for remaining "
         +:+ pretty (Z.of_nat (size (remaining st))) +:+ " hashes...";
      "This may take a while...";
      "Using " +:+ pretty num_cpus +:+ " CPU cores" ] st in
  RunState (all_results st) (remaining st) submit_all (console st).

(** Lines 79-100. *)
Definition phase2 (st : run_state) : run_state :=
  if decide (remaining st = ∅) then st
  else
    let st := phase2_dispatch st in
    phase2_loop (as_completed (futures st)) st.

(** Lines 43-69. *)
Definition main_init (table : list (string * string)) : run_state :=
  RunState ∅ (keys table) []
    ([ "IPv4 Hash Cracker"; str_mul "=" 50;
       "Target hashes to crack: " +:+ pretty (Z.of_nat (length table)) ]
     ++ ((λ '(h, desc), "  " +:+ h +:+ ": " +:+ desc) <$> table)
     ++ [ str_mul "=" 50;
          nl +:+ "Phase 1: Checking common IP ranges first..." ]).

(** Lines 102-104. *)
Definition report_header : list string :=
  [ nl +:+ str_mul "=" 50; "RESULTS:"; str_mul "=" 50 ].

(** Lines 42-109, with the table as a parameter; the program is
    [main TARGET_HASHES]. *)
Definition main (table : list (string * string)) : result run_state :=
  let st := phase1_loop common_ranges (main_init table) in
  let st := phase2 st in
  let st := run_prints report_header st in
  match report table (all_results st) (console st) with
  | Ok lines => Ok (RunState (all_results st) (remaining st) (futures st) lines)
  | Raise e => Raise e
  end.
End Cracker.

(** The local result dict after the scanner has hashed exactly the
    candidates of [l], in that order, starting from [r]. *)
Definition matches (digest : string → string) (targets : gset string)
    (l : list string) (r : gmap string string) : gmap string string :=
  fold_left (λ r ip, if decide (digest ip ∈ targets)
                     then <[digest ip := ip]> r else r) l r.

(** Strings without a dot: the decimal numerals are such. *)
Fixpoint dotless (s : string) : Prop :=
  match s with
  | EmptyString => True
  | String c s' => c ≠ "."%char ∧ dotless s'
  end.

(** The scanner with its console forgotten: the returned dict and the
    ghost log, advanced by one candidate. *)
Definition core_of (s : scan_state) : gmap string string * list string :=
  (results s, hashed s).

Definition scan_step (digest : string → string) (targets : gset string)
    (ip : string) (c : gmap string string * list string)
    : flow (gmap string string * list string) :=
  if decide (digest ip ∈ targets) then
    if decide (size (<[digest ip := ip]> c.1) = size targets)
    then Stop (<[digest ip := ip]> c.1, c.2 ++ [ip])
    else Next (<[digest ip := ip]> c.1, c.2 ++ [ip])
  else Next (c.1, c.2 ++ [ip]).

(** The invariant of the aggregator with respect to a target table. *)
Definition agg_inv (table : list (string * string)) (st : run_state) : Prop :=
  remaining st ## dom (all_results st) ∧
  remaining st ∪ dom (all_results st) = keys table.

(** The values the set [remaining] has had lie between its present value
    and its value [pending] when the futures were submitted. *)
Definition pool_ok (pending : gset string) (ps : pool_state) : Prop :=
  remaining (p_run ps) ⊆ pending ∧
  ∀ t, t ∈ p_seen ps → remaining (p_run ps) ⊆ t ∧ t ⊆ pending.

(** Two pools for the instances below.  The first pickles every call
    before the first merge and finishes the futures in the reverse of the
    order of submission.  The second has one worker: it finishes the
    futures in the order of submission and pickles the call of the
    [k]-th one when [k - 1] merges have been made. *)
Definition eager_pool (l : list future) : list (future * nat) :=
  (λ f, (f, 0%nat)) <$> reverse l.


Example sha1_abc :
  sha1_hex "abc" = "a9993e364706816aba3e25717850c26c9cd0d89d".
Proof. vm_compute. reflexivity. Qed.

(** ** Loops *)

Section Loops.
Context {A S : Type}.
Implicit Types (body : A → S → flow S) (xs : list A) (s : S).

Lemma for_each_app xs ys body s :
  for_each (xs ++ ys) body s = flow_then (for_each xs body s) (for_each ys body).
Proof.
  revert s. induction xs as [|x xs IH]; intros s; simpl; [reflexivity|].
  destruct (body x s); simpl; auto.
Qed.

(** A property kept by every iteration is kept by the loop. *)
Lemma for_each_inv (P : S → Prop) xs body s :
  (∀ x s, x ∈ xs → P s → P (flow_state (body x s))) →
  P s → P (flow_state (for_each xs body s)).
Proof.
  revert s. induction xs as [|x xs IH]; intros s Hbody Hs; simpl; [done|].
  pose proof (Hbody x s ltac:(left) Hs) as Hx.
  destruct (body x s); simpl in *; [|done].
  apply IH; [|done]. intros y t Hy. apply Hbody. by right.
Qed.
End Loops.

(** A loop nest whose inner loops, seen through [π], run [step] over the
    lists [L x] is, seen through [π], one loop over their concatenation. *)
Lemma for_each_flat {A S T B} (π : S → T) (L : A → list B)
    (step : B → T → flow T) (f : A → S → flow S) (xs : list A) (s : S) :
  (∀ x s, flow_map π (f x s) = for_each (L x) step (π s)) →
  flow_map π (for_each xs f s) = for_each (xs ≫= L) step (π s).
Proof.
  intros Hf. revert s. induction xs as [|x xs IH]; intros s; [reflexivity|].
  rewrite bind_cons, for_each_app; simpl. rewrite <-Hf.
  destruct (f x s); simpl; auto.
Qed.

(** ** The candidate strings *)

Lemma pretty_N_char_not_dot x : pretty_N_char x ≠ "."%char.
Proof. unfold pretty_N_char. repeat case_match; discriminate. Qed.

Lemma dotless_pretty_N_go x s : dotless s → dotless (pretty_N_go x s).
Proof.
  revert s. induction (N.lt_wf_0 x) as [x _ IH]; intros s Hs.
  destruct (decide (x = 0%N)) as [->|Hx].
  - by rewrite pretty_N_go_0.
  - rewrite pretty_N_go_step by lia. apply IH.
    + apply N.div_lt; lia.
    + split; [apply pretty_N_char_not_dot|done].
Qed.

Lemma dotless_pretty_N (x : N) : dotless (pretty x).
Proof.
  unfold pretty, pretty_N. case_decide; [by repeat split|].
  by apply dotless_pretty_N_go.
Qed.

Lemma dotless_pretty_Z (z : Z) : dotless (pretty z).
Proof.
  destruct z as [|p|p]; unfold pretty, pretty_Z.
  - by repeat split.
  - apply dotless_pretty_N.
  - split; [discriminate|]. apply dotless_pretty_N.
Qed.

(** Two texts that agree and each start with a dotless field followed by
    a dot have the same first field and the same rest. *)
Lemma dot_split s1 s2 r1 r2 :
  dotless s1 → dotless s2 →
  s1 +:+ String "." r1 = s2 +:+ String "." r2 → s1 = s2 ∧ r1 = r2.
Proof.
  revert s2. induction s1 as [|c s1 IH]; intros [|c' s2]; simpl.
  - intros _ _ [= ->]. done.
  - intros _ [Hc _] [= <- _]. done.
  - intros [Hc _] _ [= -> _]. done.
  - intros [_ H1] [_ H2] [= -> Heq].
    destruct (IH s2 H1 H2 Heq) as [-> ->]. done.
Qed.

Lemma ip_str_inj a b c d a' b' c' d' :
  ip_str a b c d = ip_str a' b' c' d' → a = a' ∧ b = b' ∧ c = c' ∧ d = d'.
Proof.
  unfold ip_str; simpl. intros H.
  apply dot_split in H as [Ha H]; try apply dotless_pretty_Z.
  apply dot_split in H as [Hb H]; try apply dotless_pretty_Z.
  apply dot_split in H as [Hc Hd]; try apply dotless_pretty_Z.
  by repeat split; apply (inj pretty).
Qed.

Lemma elem_of_range start stop k : k ∈ range start stop ↔ start ≤ k < stop.
Proof. unfold range. rewrite elem_of_seqZ. lia. Qed.

Lemma range_empty start stop : stop ≤ start → range start stop = [].
Proof. intros. apply seqZ_nil. lia. Qed.

Lemma elem_of_candidates start_a end_a s :
  s ∈ candidates start_a end_a ↔
  ∃ a b c d, start_a ≤ a < end_a ∧ 0 ≤ b < 256 ∧ 0 ≤ c < 256 ∧ 0 ≤ d < 256
             ∧ s = ip_str a b c d.
Proof.
  unfold candidates. split.
  - intros (a & (b & (c & (d & Hs & Hd)%list_elem_of_bind & Hc)%list_elem_of_bind
                  & Hb)%list_elem_of_bind & Ha)%list_elem_of_bind.
    apply list_elem_of_singleton in Hs. apply elem_of_range in Ha, Hb, Hc, Hd.
    exists a, b, c, d. repeat split; try lia. done.
  - intros (a & b & c & d & Ha & Hb & Hc & Hd & ->).
    apply list_elem_of_bind. exists a. split; [|by apply elem_of_range].
    apply list_elem_of_bind. exists b. split; [|by apply elem_of_range].
    apply list_elem_of_bind. exists c. split; [|by apply elem_of_range].
    apply list_elem_of_bind. exists d. split; [|by apply elem_of_range].
    by apply list_elem_of_singleton.
Qed.

Lemma NoDup_candidates start_a end_a : NoDup (candidates start_a end_a).
Proof.
  unfold candidates, range.
  apply NoDup_bind; [| |apply NoDup_seqZ].
  { intros a a' s _ _.
    intros (b & (c & (d & ->%list_elem_of_singleton & _)%list_elem_of_bind
                   & _)%list_elem_of_bind & _)%list_elem_of_bind.
    intros (b' & (c' & (d' & H%list_elem_of_singleton & _)%list_elem_of_bind
                   & _)%list_elem_of_bind & _)%list_elem_of_bind.
    by apply ip_str_inj in H as (? & _). }
  intros a _. apply NoDup_bind; [| |apply NoDup_seqZ].
  { intros b b' s _ _.
    intros (c & (d & ->%list_elem_of_singleton & _)%list_elem_of_bind
                   & _)%list_elem_of_bind.
    intros (c' & (d' & H%list_elem_of_singleton & _)%list_elem_of_bind
                   & _)%list_elem_of_bind.
    by apply ip_str_inj in H as (_ & ? & _). }
  intros b _. apply NoDup_bind; [| |apply NoDup_seqZ].
  { intros c c' s _ _.
    intros (d & ->%list_elem_of_singleton & _)%list_elem_of_bind.
    intros (d' & H%list_elem_of_singleton & _)%list_elem_of_bind.
    by apply ip_str_inj in H as (_ & _ & ? & _). }
  intros c _. apply NoDup_bind; [| |apply NoDup_seqZ].
  { intros d d' s _ _ ->%list_elem_of_singleton H%list_elem_of_singleton.
    by apply ip_str_inj in H as (_ & _ & _ & ?). }
  intros d _. apply NoDup_singleton.
Qed.

(** Lengths and positions in a [≫=] whose pieces all have [K] elements,
    counted in [Z] so that no large unary number is ever built. *)
Lemma length_bind_const {A B} (f : A → list B) (K : Z) (l : list A) :
  (∀ x, Z.of_nat (length (f x)) = K) →
  Z.of_nat (length (l ≫= f)) = Z.of_nat (length l) * K.
Proof.
  intros Hf. induction l as [|x l IH]; [simpl; lia|].
  rewrite bind_cons, length_app, Nat2Z.inj_add, IH, Hf.
  rewrite length_cons, Nat2Z.inj_succ. lia.
Qed.

Lemma lookup_bind_const {A B} (f : A → list B) (K : Z) (l : list A) i j x y :
  (∀ x, Z.of_nat (length (f x)) = K) →
  0 ≤ i → 0 ≤ j →
  l !! Z.to_nat i = Some x → f x !! Z.to_nat j = Some y →
  (l ≫= f) !! Z.to_nat (i * K + j) = Some y.
Proof.
  intros Hf. revert i. induction l as [|x0 l IH]; intros i Hi Hj Hx Hy.
  { by rewrite lookup_nil in Hx. }
  rewrite bind_cons.
  destruct (decide (i = 0)) as [->|Hne].
  - simpl in Hx. injection Hx as ->.
    rewrite lookup_app_l; [by rewrite Z.mul_0_l, Z.add_0_l|].
    apply lookup_lt_Some in Hy. lia.
  - assert (Z.to_nat i = S (Z.to_nat (i - 1))) as Hi' by lia.
    rewrite Hi' in Hx. simpl in Hx.
    pose proof (Hf x0) as Hlen.
    rewrite lookup_app_r by nia.
    replace (Z.to_nat (i * K + j) - length (f x0))%nat
      with (Z.to_nat ((i - 1) * K + j)) by nia.
    apply IH; auto with lia.
Qed.

Lemma length_range start stop :
  Z.of_nat (length (range start stop)) = Z.max 0 (stop - start).
Proof. unfold range. rewrite length_seqZ. lia. Qed.

Lemma lookup_range start stop a :
  start ≤ a < stop → range start stop !! Z.to_nat (a - start) = Some a.
Proof.
  intros. unfold range. apply lookup_seqZ. split; lia.
Qed.

Lemma lookup_range_0 stop a :
  0 ≤ a < stop → range 0 stop !! Z.to_nat a = Some a.
Proof.
  intros H. pose proof (lookup_range 0 stop a H) as Hl.
  by rewrite Z.sub_0_r in Hl.
Qed.

Lemma length_candidates start_a end_a :
  Z.of_nat (length (candidates start_a end_a))
  = Z.max 0 (end_a - start_a) * 16777216.
Proof.
  unfold candidates.
  rewrite (length_bind_const _ 16777216), length_range; [done|]. intros a.
  rewrite (length_bind_const _ 65536), length_range; [done|]. intros b.
  rewrite (length_bind_const _ 256), length_range; [done|]. intros c.
  rewrite (length_bind_const _ 1), length_range; [done|]. intros d.
  done.
Qed.

(** The candidate [a.b.c.d] stands at its rank in the lexicographic order
    of the octet quadruples. *)
Lemma lookup_candidates start_a end_a a b c d :
  start_a ≤ a < end_a → 0 ≤ b < 256 → 0 ≤ c < 256 → 0 ≤ d < 256 →
  candidates start_a end_a
    !! Z.to_nat ((((a - start_a) * 256 + b) * 256 + c) * 256 + d)
  = Some (ip_str a b c d).
Proof.
  intros Ha Hb Hc Hd. unfold candidates.
  replace ((((a - start_a) * 256 + b) * 256 + c) * 256 + d)
    with ((a - start_a) * 16777216 + (b * 65536 + (c * 256 + (d * 1 + 0))))
    by lia.
  eapply lookup_bind_const; [|lia|lia|by apply lookup_range|].
  { intros a'.
    rewrite (length_bind_const _ 65536), length_range; [done|]. intros b'.
    rewrite (length_bind_const _ 256), length_range; [done|]. intros c'.
    rewrite (length_bind_const _ 1), length_range; [done|]. done. }
  eapply lookup_bind_const; [|lia|lia|by apply lookup_range_0|].
  { intros b'.
    rewrite (length_bind_const _ 256), length_range; [done|]. intros c'.
    rewrite (length_bind_const _ 1), length_range; [done|]. done. }
  eapply lookup_bind_const; [|lia|lia|by apply lookup_range_0|].
  { intros c'. rewrite (length_bind_const _ 1), length_range; [done|]. done. }
  eapply lookup_bind_const; [|lia|lia|by apply lookup_range_0|].
  { done. }
  done.
Qed.

(** ** The scanner seen as one loop over the candidates *)

Lemma flow_then_Next {S} (r : flow S) : flow_then r Next = r.
Proof. by destruct r. Qed.

Lemma flow_state_map {S T} (f : S → T) (r : flow S) :
  flow_state (flow_map f r) = f (flow_state r).
Proof. by destruct r. Qed.

Lemma flow_map_then_silent {S T} (π : S → T) (g : S → S) (r : flow S) :
  (∀ s, π (g s) = π s) →
  flow_map π (flow_then r (λ s, Next (g s))) = flow_map π r.
Proof. intros Hg. destruct r; simpl; by rewrite ?Hg. Qed.

Section Scanner.
Variable digest : string → string.
Variable targets : gset string.
Variable target_dict : option (gmap string string).

Local Abbreviation step := (scan_step digest targets).
Local Abbreviation found := (matches digest targets).

Lemma crack_body_core a b c d s :
  flow_map core_of (crack_body digest targets target_dict a b c d s)
  = step (ip_str a b c d) (core_of s).
Proof.
  unfold crack_body, scan_step, core_of; simpl.
  destruct (decide (digest (ip_str a b c d) ∈ targets)); [|done].
  destruct (decide (size (<[_ := _]> (results s)) = size targets)); done.
Qed.

Lemma crack_octet_core a s :
  flow_map core_of (crack_octet digest targets target_dict a s)
  = for_each (b ← range 0 256; c ← range 0 256; d ← range 0 256;
              [ip_str a b c d]) step (core_of s).
Proof.
  unfold crack_octet. rewrite flow_map_then_silent by done.
  apply for_each_flat. intros b s1.
  apply for_each_flat. intros c s2.
  apply for_each_flat. intros d s3.
  simpl. rewrite flow_then_Next. apply crack_body_core.
Qed.

(** The dict and the log of [crack_range] are those of the loop that
    runs [scan_step] over [candidates]. *)
Lemma crack_range_core start_a end_a :
  core_of (crack_range digest start_a end_a targets target_dict)
  = flow_state (for_each (candidates start_a end_a) step (∅, [])).
Proof.
  pose proof (for_each_flat core_of _ step _ (range start_a end_a)
                scan_init crack_octet_core) as H.
  unfold crack_range, candidates.
  change (core_of scan_init) with (∅ : gmap string string, [] : list string) in H.
  rewrite <-H. symmetry. apply flow_state_map.
Qed.

(** Every entry of the dict was there at the start or comes from a
    hashed candidate whose digest is a target. *)
Lemma found_sound l r h ip :
  found l r !! h = Some ip →
  r !! h = Some ip ∨ (ip ∈ l ∧ digest ip = h ∧ h ∈ targets).
Proof.
  revert r. induction l as [|x l IH]; intros r; simpl; [by left|].
  intros [Hr|(Hin & Hd & Ht)]%IH.
  - destruct (decide (digest x ∈ targets)) as [Hx|]; [|by left].
    destruct (decide (digest x = h)) as [<-|Hne].
    + rewrite lookup_insert_eq in Hr. injection Hr as <-.
      right. repeat split; [left|done].
    + rewrite lookup_insert_ne in Hr by done. by left.
  - right. repeat split; [by right|done..].
Qed.

Lemma found_dom_mono l r : dom r ⊆ dom (found l r).
Proof.
  revert r. induction l as [|x l IH]; intros r; simpl; [done|].
  etrans; [|apply IH]. case_decide; [|done].
  rewrite dom_insert. set_solver.
Qed.

(** A hashed candidate whose digest is a target has its digest in the
    dict. *)
Lemma found_complete l r x :
  x ∈ l → digest x ∈ targets → digest x ∈ dom (found l r).
Proof.
  revert r. induction l as [|y l IH]; intros r Hin Hx; [by inv Hin|].
  simpl. apply elem_of_cons in Hin as [<-|Hin]; [|by apply IH].
  apply found_dom_mono. rewrite decide_True by done.
  rewrite dom_insert. set_solver.
Qed.

Lemma found_dom l r : dom r ⊆ targets → dom (found l r) ⊆ targets.
Proof.
  intros Hr h [ip Hip]%elem_of_dom.
  apply found_sound in Hip as [Hip|(_ & _ & ?)]; [|done].
  apply Hr. by apply elem_of_dom.
Qed.

(** Candidates whose digests are not targets are hashed and passed. *)
Lemma scan_nomatch l c :
  Forall (λ y, digest y ∉ targets) l →
  for_each l step c = Next (c.1, c.2 ++ l).
Proof.
  intros Hl. revert c. induction Hl as [|y l Hy _ IH]; intros [r log]; simpl.
  { by rewrite app_nil_r. }
  unfold scan_step at 1. rewrite decide_False by done. simpl.
  rewrite IH. simpl. by rewrite <-app_assoc.
Qed.

(** What a scan of [l] does: it hashes a prefix [p] of [l], ends with
    the dict [found p r], stops short of the end of [l] only with as
    many entries as targets, and, when it did not start with that
    many, never went on hashing with that many. *)
Lemma scan_run l r log :
  ∃ p q, l = p ++ q ∧
    flow_state (for_each l step (r, log)) = (found p r, log ++ p) ∧
    (q ≠ [] → size (found p r) = size targets) ∧
    (size r ≠ size targets →
     ∀ p1 p2, p = p1 ++ p2 → p2 ≠ [] → size (found p1 r) ≠ size targets).
Proof.
  revert r log. induction l as [|x l IH]; intros r log.
  { exists [], []. split_and!; [done|simpl; by rewrite app_nil_r|done|].
    intros _ p1 p2 Hp. by destruct p1, p2. }
  simpl. unfold scan_step at 1. simpl.
  destruct (decide (digest x ∈ targets)) as [Hx|Hx].
  - destruct (decide (size (<[digest x := x]> r) = size targets))
      as [Hsz|Hsz]; simpl.
    + exists [x], l. simpl. rewrite decide_True by done.
      split_and!; try done.
      intros Hr p1 p2 Hp Hp2. destruct p1 as [|y p1]; [done|].
      injection Hp as _ Hp. by destruct p1, p2.
    + destruct (IH (<[digest x := x]> r) (log ++ [x]))
        as (p & q & -> & Hst & Hq & Hpre).
      exists (x :: p), q. simpl. rewrite decide_True by done.
      rewrite Hst, <-app_assoc. split_and!; try done.
      intros Hr p1 p2 Hp Hp2. destruct p1 as [|y p1]; [done|].
      injection Hp as <- Hp. simpl. rewrite decide_True by done.
      by apply (Hpre Hsz p1 p2).
  - simpl. destruct (IH r (log ++ [x])) as (p & q & -> & Hst & Hq & Hpre).
    exists (x :: p), q. simpl. rewrite decide_False by done.
    rewrite Hst, <-app_assoc. split_and!; try done.
    intros Hr p1 p2 Hp Hp2. destruct p1 as [|y p1]; [done|].
    injection Hp as <- Hp. simpl. rewrite decide_False by done.
    by apply (Hpre Hr p1 p2).
Qed.
End Scanner.

(** The run of [crack_range] in terms of the candidates it hashed. *)
Lemma crack_range_run digest start_a end_a targets target_dict :
  ∃ rest,
    candidates start_a end_a
    = hashed (crack_range digest start_a end_a targets target_dict) ++ rest ∧
    results (crack_range digest start_a end_a targets target_dict)
    = matches digest targets
        (hashed (crack_range digest start_a end_a targets target_dict)) ∅ ∧
    (rest ≠ [] →
     size (results (crack_range digest start_a end_a targets target_dict))
     = size targets) ∧
    (targets ≠ ∅ → ∀ p1 p2,
       hashed (crack_range digest start_a end_a targets target_dict) = p1 ++ p2 →
       p2 ≠ [] → size (matches digest targets p1 ∅) ≠ size targets).
Proof.
  pose proof (crack_range_core digest targets target_dict start_a end_a) as Hcore.
  destruct (scan_run digest targets (candidates start_a end_a) ∅ [])
    as (p & q & Hl & Hst & Hq & Hpre).
  rewrite Hst in Hcore. unfold core_of in Hcore. simpl in Hcore.
  injection Hcore as Hres Hlog. rewrite Hres, Hlog.
  exists q. split_and!; [done..|].
  intros Hne. apply Hpre. rewrite map_size_empty. intros Hsz.
  apply Hne. symmetry in Hsz. by apply size_empty_inv, leibniz_equiv in Hsz.
Qed.

(** With no targets nothing ever matches, so nothing stops the scan. *)
Lemma crack_range_no_targets digest start_a end_a target_dict :
  hashed (crack_range digest start_a end_a ∅ target_dict)
  = candidates start_a end_a ∧
  results (crack_range digest start_a end_a ∅ target_dict) = ∅.
Proof.
  pose proof (crack_range_core digest ∅ target_dict start_a end_a) as Hcore.
  rewrite scan_nomatch in Hcore.
  - unfold core_of in Hcore. simpl in Hcore. by injection Hcore as -> ->.
  - apply Forall_forall. intros y _. apply not_elem_of_empty.
Qed.

(** The only target is found: the dict is complete and the scan stops. *)
Lemma scan_hit_single digest x log :
  scan_step digest {[digest x]} x (∅, log)
  = Stop ({[digest x := x]}, log ++ [x]).
Proof.
  unfold scan_step. cbn [fst snd].
  rewrite decide_True by set_solver.
  rewrite insert_empty, decide_True; [done|].
  by rewrite map_size_singleton, size_singleton.
Qed.

(** ** The claims about the scanner *)

(** C5.  For [start < end] the loops of [crack_range] range over exactly
    [(end - start) * 256^3] candidate strings, pairwise distinct: they are
    the strings [a.b.c.d] with [a] in [[start, end)] and [b], [c], [d] in
    [[0, 255]], and [a.b.c.d] stands at its rank in the nested ascending
    order (first octet outermost).  A scan that nothing stops hashes all of
    them in that order.  For [[0, 256)] this is 256^4 = 4294967296
    candidates. *)
Theorem candidates_enumeration (start_a end_a : Z) :
  start_a < end_a →
  Z.of_nat (length (candidates start_a end_a)) = (end_a - start_a) * 256 ^ 3 ∧
  NoDup (candidates start_a end_a) ∧
  (∀ s, s ∈ candidates start_a end_a ↔
        ∃ a b c d, start_a ≤ a < end_a ∧ 0 ≤ b < 256 ∧ 0 ≤ c < 256 ∧
                   0 ≤ d < 256 ∧ s = ip_str a b c d) ∧
  (∀ a b c d,
     start_a ≤ a < end_a → 0 ≤ b < 256 → 0 ≤ c < 256 → 0 ≤ d < 256 →
     candidates start_a end_a
       !! Z.to_nat ((((a - start_a) * 256 + b) * 256 + c) * 256 + d)
     = Some (ip_str a b c d)) ∧
  (∀ digest target_dict,
     hashed (crack_range digest start_a end_a ∅ target_dict)
     = candidates start_a end_a).
Proof.
  intros Hlt. split_and!.
  - rewrite length_candidates. lia.
  - apply NoDup_candidates.
  - apply elem_of_candidates.
  - apply lookup_candidates.
  - intros digest td. apply crack_range_no_targets.
Qed.

(** C9.  When [start_octet >= end_octet] the loops range over no candidate
    and [crack_range] returns the empty dict, whatever the targets, having
    hashed and printed nothing. *)
Theorem empty_range_scans_nothing digest (start_a end_a : Z)
    (targets : gset string) (target_dict : option (gmap string string)) :
  start_a >= end_a →
  candidates start_a end_a = [] ∧
  results (crack_range digest start_a end_a targets target_dict) = ∅ ∧
  hashed (crack_range digest start_a end_a targets target_dict) = [] ∧
  out (crack_range digest start_a end_a targets target_dict) = [].
Proof.
  intros Hge. unfold candidates, crack_range.
  rewrite (range_empty start_a end_a) by lia. done.
Qed.

(** C10.  Every entry [(h, ip)] of the dict returned by a scan of
    [[start, end)], [0 <= start <= end <= 256], has [h] among the targets,
    [h] is the digest of [ip], and [ip] is a dotted quad with all octets in
    [[0, 255]] and the first one in [[start, end)].  Hence merging it only
    adds such entries to the accumulated results. *)
Theorem crack_range_sound digest (start_a end_a : Z)
    (targets : gset string) (target_dict : option (gmap string string)) :
  0 ≤ start_a ≤ end_a ∧ end_a ≤ 256 →
  (∀ h ip,
     results (crack_range digest start_a end_a targets target_dict) !! h = Some ip →
     h ∈ targets ∧ digest ip = h ∧
     ∃ a b c d, start_a ≤ a < end_a ∧ 0 ≤ a < 256 ∧ 0 ≤ b < 256 ∧
                0 ≤ c < 256 ∧ 0 ≤ d < 256 ∧ ip = ip_str a b c d) ∧
  (∀ st h ip,
     all_results
       (merge st (results (crack_range digest start_a end_a targets target_dict)))
       !! h = Some ip →
     all_results st !! h = Some ip ∨
     (h ∈ targets ∧ digest ip = h ∧
      ∃ a b c d, start_a ≤ a < end_a ∧ ip = ip_str a b c d)).
Proof.
  intros Hrange.
  assert (∀ h ip,
     results (crack_range digest start_a end_a targets target_dict) !! h = Some ip →
     h ∈ targets ∧ digest ip = h ∧
     ∃ a b c d, start_a ≤ a < end_a ∧ 0 ≤ a < 256 ∧ 0 ≤ b < 256 ∧
                0 ≤ c < 256 ∧ 0 ≤ d < 256 ∧ ip = ip_str a b c d) as Hsound.
  { intros h ip Hip.
    destruct (crack_range_run digest start_a end_a targets target_dict)
      as (rest & Hcand & Hres & _).
    rewrite Hres in Hip.
    apply found_sound in Hip as [Hip|(Hin & Hd & Ht)].
    { by rewrite lookup_empty in Hip. }
    split_and!; [done..|].
    assert (ip ∈ candidates start_a end_a) as Hc.
    { rewrite Hcand. apply elem_of_app. by left. }
    apply elem_of_candidates in Hc as (a & b & c & d & ? & ? & ? & ? & ->).
    exists a, b, c, d. split_and!; try done; lia. }
  split; [done|].
  intros st h ip. unfold merge; simpl.
  intros [Hip|[_ Hip]]%lookup_union_Some_raw; [|by left].
  right. destruct (Hsound h ip Hip) as (? & ? & a & b & c & d & ? & _ & _ & _ & _ & ?).
  eauto 10.
Qed.

(** C1.  Let [X = a.b.c.d] be a candidate of the sub-range [[start, end)],
    [0 <= start < end <= 256], whose digest no other candidate of the
    sub-range shares.  Scanning the sub-range for the single target
    [digest X] returns the dict with exactly the entry [digest X -> X]. *)
Theorem crack_range_finds digest (start_a end_a a b c d : Z)
    (target_dict : option (gmap string string)) :
  0 ≤ start_a < end_a ∧ end_a ≤ 256 →
  start_a ≤ a < end_a → 0 ≤ b < 256 → 0 ≤ c < 256 → 0 ≤ d < 256 →
  (∀ y, y ∈ candidates start_a end_a →
        digest y = digest (ip_str a b c d) → y = ip_str a b c d) →
  results (crack_range digest start_a end_a {[digest (ip_str a b c d)]} target_dict)
  = {[digest (ip_str a b c d) := ip_str a b c d]}.
Proof.
  intros _ Ha Hb Hc Hd Huniq.
  set (X := ip_str a b c d) in *.
  assert (X ∈ candidates start_a end_a) as HX.
  { apply elem_of_candidates. exists a, b, c, d. done. }
  apply list_elem_of_split_l in HX as (l1 & l2 & Hl & Hnot).
  pose proof (crack_range_core digest {[digest X]} target_dict start_a end_a)
    as Hcore.
  rewrite Hl, for_each_app, scan_nomatch in Hcore.
  - cbn [fst snd flow_then for_each] in Hcore.
    rewrite scan_hit_single in Hcore.
    unfold core_of in Hcore. cbn [flow_then flow_state] in Hcore.
    by injection Hcore as -> _.
  - apply Forall_forall. intros y Hy Hdy.
    apply elem_of_singleton in Hdy. apply Hnot.
    rewrite <-(Huniq y); [done| |done].
    rewrite Hl. apply elem_of_app. by left.
Qed.

(** C4 (amended).  The scanner hashes the candidates in order and tests
    its count against the number of targets right after recording a
    match, nowhere else.  With a non-empty snapshot it therefore never
    hashes a candidate once its dict has as many entries as the snapshot,
    and with a snapshot of size 1 a candidate whose digest is the target
    is the last one hashed.  With an empty snapshot no candidate matches,
    the test is never reached, and the whole sub-range is hashed. *)
Theorem crack_range_early_exit digest (start_a end_a : Z)
    (targets : gset string) (target_dict : option (gmap string string)) :
  (∃ rest,
     candidates start_a end_a
     = hashed (crack_range digest start_a end_a targets target_dict) ++ rest ∧
     (rest ≠ [] →
      size (results (crack_range digest start_a end_a targets target_dict))
      = size targets)) ∧
  results (crack_range digest start_a end_a targets target_dict)
  = matches digest targets
      (hashed (crack_range digest start_a end_a targets target_dict)) ∅ ∧
  (targets ≠ ∅ → ∀ p1 p2,
     hashed (crack_range digest start_a end_a targets target_dict) = p1 ++ p2 →
     p2 ≠ [] → size (matches digest targets p1 ∅) ≠ size targets) ∧
  (size targets = 1%nat → ∀ (i : nat) x,
     hashed (crack_range digest start_a end_a targets target_dict) !! i = Some x →
     digest x ∈ targets →
     S i = length (hashed (crack_range digest start_a end_a targets target_dict))) ∧
  (targets = ∅ →
     hashed (crack_range digest start_a end_a targets target_dict)
     = candidates start_a end_a ∧
     results (crack_range digest start_a end_a targets target_dict) = ∅).
Proof.
  destruct (crack_range_run digest start_a end_a targets target_dict)
    as (rest & Hcand & Hres & Hrest & Hpre).
  split_and!; [by exists rest|done|done| |].
  - intros Hone i x Hi Hx.
    set (log := hashed (crack_range digest start_a end_a targets target_dict)) in *.
    pose proof (lookup_lt_Some _ _ _ Hi) as Hlt.
    destruct (decide (S i = length log)) as [|Hne]; [done|exfalso].
    assert (targets ≠ ∅) as Hnonempty.
    { intros ->. by rewrite size_empty in Hone. }
    apply (Hpre Hnonempty (take (S i) log) (drop (S i) log)).
    + by rewrite take_drop.
    + intros Hnil. apply (f_equal length) in Hnil.
      rewrite length_drop in Hnil. simpl in Hnil. lia.
    + assert (x ∈ take (S i) log) as Hin.
      { apply elem_of_take. exists i. split; [done|lia]. }
      pose proof (found_complete digest targets _ ∅ x Hin Hx) as Hdom.
      pose proof (found_dom digest targets (take (S i) log) ∅) as Hsub.
      rewrite dom_empty_L in Hsub. specialize (Hsub ltac:(set_solver)).
      rewrite <-size_dom.
      apply subseteq_size in Hsub.
      assert (size (dom (matches digest targets (take (S i) log) ∅)) ≠ 0%nat).
      { intros H0%size_empty_inv. set_solver. }
      lia.
  - intros ->. apply crack_range_no_targets.
Qed.

(** ** The aggregator *)

Lemma dom_results_subseteq digest start_a end_a targets target_dict :
  dom (results (crack_range digest start_a end_a targets target_dict)) ⊆ targets.
Proof.
  destruct (crack_range_run digest start_a end_a targets target_dict)
    as (rest & _ & -> & _).
  apply found_dom. by rewrite dom_empty_L.
Qed.

Lemma results_digest digest start_a end_a targets target_dict h ip :
  results (crack_range digest start_a end_a targets target_dict) !! h = Some ip →
  digest ip = h.
Proof.
  destruct (crack_range_run digest start_a end_a targets target_dict)
    as (rest & _ & -> & _).
  intros [Hip|(_ & ? & _)]%found_sound; [|done].
  by rewrite lookup_empty in Hip.
Qed.

(** Merging a dict whose keys are digests of the table keeps the
    aggregator's invariant. *)
Lemma agg_inv_merge table st res :
  agg_inv table st → dom res ⊆ keys table → agg_inv table (merge st res).
Proof.
  unfold agg_inv, merge; simpl. intros [Hdisj Hunion] Hres.
  rewrite dom_union_L. split.
  - intros h [HR Hn]%elem_of_difference [Hh|Hh]%elem_of_union; [done|].
    by apply (Hdisj h).
  - apply set_eq. intros h. rewrite <-Hunion.
    rewrite !elem_of_union, elem_of_difference.
    destruct (decide (h ∈ dom res)) as [Hh|Hh]; [|intuition].
    pose proof (Hres h Hh) as Hk. rewrite <-Hunion, elem_of_union in Hk.
    intuition.
Qed.

Lemma agg_inv_init table : agg_inv table (main_init table).
Proof.
  unfold agg_inv, main_init; simpl. rewrite dom_empty_L.
  split; [apply disjoint_empty_r|apply (right_id_L ∅ (∪))].
Qed.

Lemma phase1_body_inv digest table rg st :
  agg_inv table st → agg_inv table (flow_state (phase1_body digest rg st)).
Proof.
  intros Hinv. destruct rg as [start end_]. unfold phase1_body.
  case_decide; [done|]. simpl.
  apply agg_inv_merge; [done|].
  etrans; [apply dom_results_subseteq|]. simpl.
  destruct Hinv as [_ <-]. set_solver.
Qed.

Lemma phase1_loop_inv digest table ranges :
  agg_inv table (phase1_loop digest ranges (main_init table)).
Proof.
  unfold phase1_loop. apply for_each_inv; [|by apply agg_inv_init].
  intros rg st _. apply phase1_body_inv.
Qed.

(** The report never raises: it adds one line per row of the table. *)
Lemma report_ok table all lines :
  ∃ rows,
    report table all lines = Ok (lines ++ rows) ∧
    length rows = length table ∧
    ∀ (i : nat) h desc, table !! i = Some (h, desc) →
      rows !! i = Some
        match all !! h with
        | Some ip => "  " +:+ desc +:+ ": " +:+ ip
        | None => "  " +:+ desc +:+ ": NOT FOUND (hash: " +:+ h +:+ ")"
        end.
Proof.
  revert lines. induction table as [|[h desc] table IH]; intros lines.
  { exists []. by rewrite app_nil_r. }
  cbn [report]. unfold report_row, getitem.
  set (line := match all !! h with
               | Some ip => "  " +:+ desc +:+ ": " +:+ ip
               | None => "  " +:+ desc +:+ ": NOT FOUND (hash: " +:+ h +:+ ")"
               end).
  assert ((if decide (h ∈ dom all)
           then match match all !! h with
                      | Some v => Ok v
                      | None => Raise (KeyError h)
                      end with
                | Ok ip => Ok (lines ++ ["  " +:+ desc +:+ ": " +:+ ip])
                | Raise e => Raise e
                end
           else Ok (lines ++ ["  " +:+ desc +:+ ": NOT FOUND (hash: "
                                +:+ h +:+ ")"]))
          = Ok (lines ++ [line])) as ->.
  { subst line. destruct (decide (h ∈ dom all)) as [Hin|Hout].
    - apply elem_of_dom in Hin as [ip ->]. done.
    - apply not_elem_of_dom in Hout. by rewrite Hout. }
  destruct (IH (lines ++ [line])) as (rows & -> & Hlen & Hrows).
  exists (line :: rows). rewrite <-app_assoc. split_and!; [done|simpl; lia|].
  intros [|i] h' desc' Hi.
  - by injection Hi as <- <-.
  - by apply Hrows.
Qed.

(** The state in which [main] ends, when the report does not raise. *)
Lemma main_ok digest num_cpus as_completed table :
  ∃ rows,
    main digest num_cpus as_completed table
    = Ok (RunState
            (all_results (phase2 digest num_cpus as_completed
               (phase1_loop digest common_ranges (main_init table))))
            (remaining (phase2 digest num_cpus as_completed
               (phase1_loop digest common_ranges (main_init table))))
            (futures (phase2 digest num_cpus as_completed
               (phase1_loop digest common_ranges (main_init table))))
            (console (phase2 digest num_cpus as_completed
               (phase1_loop digest common_ranges (main_init table)))
             ++ report_header ++ rows)) ∧
    length rows = length table ∧
    ∀ (i : nat) h desc, table !! i = Some (h, desc) →
      rows !! i = Some
        match all_results (phase2 digest num_cpus as_completed
                 (phase1_loop digest common_ranges (main_init table))) !! h with
        | Some ip => "  " +:+ desc +:+ ": " +:+ ip
        | None => "  " +:+ desc +:+ ": NOT FOUND (hash: " +:+ h +:+ ")"
        end.
Proof.
  unfold main.
  set (st := phase2 digest num_cpus as_completed
               (phase1_loop digest common_ranges (main_init table))).
  cbn [run_prints all_results remaining futures console].
  destruct (report_ok table (all_results st) (console st ++ report_header))
    as (rows & -> & Hlen & Hrows).
  exists rows. by rewrite <-app_assoc.
Qed.

Lemma results_candidate digest start_a end_a targets target_dict h ip :
  results (crack_range digest start_a end_a targets target_dict) !! h = Some ip →
  h ∈ targets ∧ digest ip = h ∧ ip ∈ candidates start_a end_a.
Proof.
  destruct (crack_range_run digest start_a end_a targets target_dict)
    as (rest & Hcand & -> & _).
  intros [Hip|(Hin & Hd & Ht)]%found_sound.
  { by rewrite lookup_empty in Hip. }
  split_and!; [done..|]. rewrite Hcand. apply elem_of_app. by left.
Qed.

(** A target that some candidate of the sub-range hashes to is a key of
    the returned dict: either the scan ran to the end and met that
    candidate, or it stopped with as many entries as targets. *)
Lemma results_complete digest start_a end_a targets target_dict ip :
  ip ∈ candidates start_a end_a → digest ip ∈ targets →
  digest ip ∈ dom (results (crack_range digest start_a end_a targets target_dict)).
Proof.
  intros Hin Ht.
  destruct (crack_range_run digest start_a end_a targets target_dict)
    as (rest & Hcand & Hres & Hrest & _).
  destruct rest as [|y rest].
  - rewrite app_nil_r in Hcand. rewrite Hres.
    apply found_complete; [|done]. by rewrite <-Hcand.
  - pose proof (dom_results_subseteq digest start_a end_a targets target_dict)
      as Hsub.
    apply set_subseteq_size_eq in Hsub as ->; [done|].
    rewrite size_dom, Hrest; done.
Qed.

(** ** The Phase 2 loop and the shared set *)

Lemma submit_all_chunks :
  submit_all = (λ k, Future (16 * k) (16 * k + 16)) <$> seqZ 0 16.
Proof. reflexivity. Qed.

Lemma pool_ok_init st : pool_ok (remaining st) (pool_init st).
Proof.
  split; [done|]. intros t Ht. cbn [pool_init p_seen p_run] in *.
  by apply list_elem_of_singleton in Ht as ->.
Qed.

(** A worker receives a set between the present pending set and the one
    at submission. *)
Lemma pickled_set_bounds pending ps m :
  pool_ok pending ps →
  remaining (p_run ps) ⊆ pickled_set ps m ∧ pickled_set ps m ⊆ pending.
Proof.
  intros [Hnow Hseen]. unfold pickled_set.
  destruct (p_seen ps !! m) as [t|] eqn:Ht; simpl; [|done].
  apply Hseen. by eapply list_elem_of_lookup_2.
Qed.

(** The two ways in which an iteration of the Phase 2 loop ends. *)
Lemma phase2_body_cases digest f m ps :
  (remaining (merge (p_run ps) (future_result digest f (pickled_set ps m))) = ∅ ∧
   phase2_body digest (f, m) ps
   = Stop (PoolState
             (run_print "All hashes cracked!"
                (merge (p_run ps) (future_result digest f (pickled_set ps m))))
             (p_seen ps ++ [remaining (merge (p_run ps)
                              (future_result digest f (pickled_set ps m)))])
             (p_ran ps ++ [pickled_set ps m]))) ∨
  (remaining (merge (p_run ps) (future_result digest f (pickled_set ps m))) ≠ ∅ ∧
   phase2_body digest (f, m) ps
   = Next (PoolState
             (merge (p_run ps) (future_result digest f (pickled_set ps m)))
             (p_seen ps ++ [remaining (merge (p_run ps)
                              (future_result digest f (pickled_set ps m)))])
             (p_ran ps ++ [pickled_set ps m]))).
Proof.
  unfold phase2_body.
  destruct (decide (remaining (merge (p_run ps)
              (future_result digest f (pickled_set ps m))) = ∅)) as [He|Hne].
  - left. by split.
  - right. by split.
Qed.

(** What an iteration does to the variables of [main] and to the ghost
    lists, whichever way it ends. *)
Lemma phase2_body_step digest f m ps :
  all_results (p_run (flow_state (phase2_body digest (f, m) ps)))
  = future_result digest f (pickled_set ps m) ∪ all_results (p_run ps) ∧
  remaining (p_run (flow_state (phase2_body digest (f, m) ps)))
  = remaining (p_run ps) ∖ dom (future_result digest f (pickled_set ps m)) ∧
  futures (p_run (flow_state (phase2_body digest (f, m) ps)))
  = futures (p_run ps) ∧
  p_seen (flow_state (phase2_body digest (f, m) ps))
  = p_seen ps
    ++ [remaining (p_run ps) ∖ dom (future_result digest f (pickled_set ps m))] ∧
  p_ran (flow_state (phase2_body digest (f, m) ps))
  = p_ran ps ++ [pickled_set ps m].
Proof.
  destruct (phase2_body_cases digest f m ps) as [[_ ->]|[_ ->]]; by split_and!.
Qed.

Lemma phase2_body_ok digest pending c ps :
  pool_ok pending ps → pool_ok pending (flow_state (phase2_body digest c ps)).
Proof.
  destruct c as [f m]. intros [Hnow Hseen].
  destruct (phase2_body_step digest f m ps) as (_ & Hrem & _ & Hsn & _).
  unfold pool_ok. rewrite Hrem, Hsn. split.
  { intros h [? _]%elem_of_difference. by apply Hnow. }
  intros t [Ht| ->%list_elem_of_singleton]%elem_of_app.
  - destruct (Hseen t Ht) as [Hlow Hup]. split; [|done].
    intros h [? _]%elem_of_difference. by apply Hlow.
  - split; [done|]. intros h [? _]%elem_of_difference. by apply Hnow.
Qed.

Lemma phase2_body_inv digest table pending c ps :
  pool_ok pending ps → pending ⊆ keys table →
  agg_inv table (p_run ps) →
  agg_inv table (p_run (flow_state (phase2_body digest c ps))).
Proof.
  destruct c as [f m]. intros Hok Hpend Hinv.
  destruct (pickled_set_bounds pending ps m Hok) as [_ Hup].
  assert (agg_inv table
            (merge (p_run ps) (future_result digest f (pickled_set ps m))))
    as Hm.
  { apply agg_inv_merge; [done|].
    etrans; [apply dom_results_subseteq|]. by etrans. }
  destruct (phase2_body_cases digest f m ps) as [[_ ->]|[_ ->]]; done.
Qed.

(** The Phase 2 loop run from any state of the pool. *)
Lemma phase2_from_inv digest table pending completed ps :
  pool_ok pending ps → pending ⊆ keys table →
  agg_inv table (p_run ps) →
  pool_ok pending (flow_state (for_each completed (phase2_body digest) ps)) ∧
  agg_inv table
    (p_run (flow_state (for_each completed (phase2_body digest) ps))).
Proof.
  intros Hok Hpend Hinv.
  apply (for_each_inv (λ ps', pool_ok pending ps' ∧ agg_inv table (p_run ps')));
    [|done].
  intros c ps' _ [Hok' Hinv']. split.
  - by apply phase2_body_ok.
  - by apply (phase2_body_inv digest table pending).
Qed.

Lemma phase2_loop_inv digest table completed st :
  agg_inv table st → agg_inv table (phase2_loop digest completed st).
Proof.
  intros Hinv. unfold phase2_loop, phase2_pool.
  apply (phase2_from_inv digest table (remaining st));
    [apply pool_ok_init| |done].
  destruct Hinv as [_ <-]. apply union_subseteq_l.
Qed.






(** ** What the loops keep *)

Lemma merge_grows st res :
  remaining (merge st res) ⊆ remaining st ∧
  dom (all_results st) ⊆ dom (all_results (merge st res)).
Proof.
  unfold merge; simpl. rewrite dom_union_L. split.
  - by intros h [? _]%elem_of_difference.
  - apply union_subseteq_r.
Qed.

Lemma phase1_body_grows digest rg st :
  remaining (flow_state (phase1_body digest rg st)) ⊆ remaining st ∧
  dom (all_results st) ⊆ dom (all_results (flow_state (phase1_body digest rg st))).
Proof.
  destruct rg as [start end_]. unfold phase1_body.
  case_decide; [done|]. cbn [flow_state].
  exact (merge_grows (run_prints _ (run_print _ st)) _).
Qed.

Lemma phase2_from_grows digest completed ps :
  remaining (p_run (flow_state (for_each completed (phase2_body digest) ps)))
  ⊆ remaining (p_run ps) ∧
  dom (all_results (p_run ps))
  ⊆ dom (all_results
           (p_run (flow_state (for_each completed (phase2_body digest) ps)))).
Proof.
  apply (for_each_inv
           (λ ps', remaining (p_run ps') ⊆ remaining (p_run ps) ∧
                   dom (all_results (p_run ps)) ⊆ dom (all_results (p_run ps'))));
    [|done].
  intros [f m] ps' _ [Hr Hd].
  destruct (phase2_body_step digest f m ps') as (Hall & Hrem & _).
  rewrite Hall, Hrem, dom_union_L. split.
  - intros h [? _]%elem_of_difference. by apply Hr.
  - etrans; [exact Hd|]. apply union_subseteq_r.
Qed.

Lemma phase1_loop_grows digest ranges st :
  remaining (phase1_loop digest ranges st) ⊆ remaining st ∧
  dom (all_results st) ⊆ dom (all_results (phase1_loop digest ranges st)).
Proof.
  unfold phase1_loop.
  apply (for_each_inv (λ st', remaining st' ⊆ remaining st ∧
                              dom (all_results st) ⊆ dom (all_results st')));
    [|done].
  intros rg st' _ [Hr Hd].
  destruct (phase1_body_grows digest rg st') as [Hr' Hd'].
  split; etrans; eauto.
Qed.

Lemma phase2_loop_grows digest completed st :
  remaining (phase2_loop digest completed st) ⊆ remaining st ∧
  dom (all_results st) ⊆ dom (all_results (phase2_loop digest completed st)).
Proof. apply (phase2_from_grows digest completed (pool_init st)). Qed.



(** With nothing pending the Phase 1 loop leaves at once. *)
Lemma phase1_loop_resolved digest ranges st :
  remaining st = ∅ → phase1_loop digest ranges st = st.
Proof.
  intros Hempty. unfold phase1_loop.
  destruct ranges as [|[start end_] ranges]; [done|].
  cbn [for_each]. unfold phase1_body. by rewrite decide_True.
Qed.

Lemma phase1_loop_cons digest rg ranges st :
  remaining st ≠ ∅ →
  phase1_loop digest (rg :: ranges) st
  = phase1_loop digest ranges (flow_state (phase1_body digest rg st)).
Proof.
  intros Hne. unfold phase1_loop. cbn [for_each].
  destruct rg as [start end_]. unfold phase1_body.
  rewrite decide_False by done. reflexivity.
Qed.

Lemma phase1_body_scan digest start end_ st :
  remaining st ≠ ∅ →
  all_results (flow_state (phase1_body digest (start, end_) st))
  = results (crack_range digest start end_ (remaining st) None) ∪ all_results st.
Proof.
  intros Hne. unfold phase1_body. rewrite decide_False by done. reflexivity.
Qed.

Lemma agg_inv_resolved table st h :
  agg_inv table st → h ∈ keys table → h ∉ remaining st →
  h ∈ dom (all_results st).
Proof.
  intros [_ Hunion] Hh Hnot. rewrite <-Hunion, elem_of_union in Hh.
  by destruct Hh.
Qed.

(** A digest of the table with a preimage in a listed range is resolved
    when Phase 1 is over. *)
Lemma phase1_loop_resolves digest table ranges st start end_ ip :
  agg_inv table st → (start, end_) ∈ ranges →
  ip ∈ candidates start end_ → digest ip ∈ keys table →
  digest ip ∈ dom (all_results (phase1_loop digest ranges st)).
Proof.
  intros Hinv Hrg Hip Hkey. revert st Hinv.
  induction ranges as [|rg ranges IH]; intros st Hinv; [by inv Hrg|].
  destruct (decide (remaining st = ∅)) as [Hempty|Hne].
  { rewrite phase1_loop_resolved by done.
    apply (agg_inv_resolved table); [done..|].
    rewrite Hempty. apply not_elem_of_empty. }
  rewrite phase1_loop_cons by done.
  apply elem_of_cons in Hrg as [<-|Hrg].
  - apply (phase1_loop_grows digest ranges). rewrite phase1_body_scan by done.
    rewrite dom_union_L. apply elem_of_union.
    destruct (decide (digest ip ∈ remaining st)) as [Hpend|Hpend].
    + left. by apply results_complete.
    + right. by apply (agg_inv_resolved table).
  - apply IH; [done|]. by apply phase1_body_inv.
Qed.

(** When the Phase 2 loop is over, either nothing is pending or every
    digest of the table with a preimage in the sub-range of a completed
    future is resolved. *)
Lemma phase2_from_complete digest table pending completed ps f m ip :
  pool_ok pending ps → pending ⊆ keys table → agg_inv table (p_run ps) →
  (f, m) ∈ completed → ip ∈ candidates (f_start f) (f_end f) →
  digest ip ∈ keys table →
  remaining (p_run (flow_state (for_each completed (phase2_body digest) ps))) = ∅
  ∨ digest ip
    ∈ dom (all_results
             (p_run (flow_state (for_each completed (phase2_body digest) ps)))).
Proof.
  intros Hok Hpend Hinv Hin Hip Hkey. revert ps Hok Hinv.
  induction completed as [|[g n] completed IH]; intros ps Hok Hinv;
    [by inv Hin|].
  cbn [for_each].
  pose proof (phase2_body_ok digest pending (g, n) ps Hok) as Hok1.
  pose proof (phase2_body_inv digest table pending (g, n) ps Hok Hpend Hinv)
    as Hinv1.
  pose proof (phase2_body_step digest g n ps) as (Hall & _).
  destruct (phase2_body_cases digest g n ps) as [[Hempty Hb]|[Hne Hb]];
    rewrite Hb in *; cbn [flow_then flow_state] in *.
  { left. done. }
  apply elem_of_cons in Hin as [[= <- <-]|Hin]; [|by apply IH].
  right. apply (phase2_from_grows digest completed).
  cbn [p_run] in *. rewrite Hall, dom_union_L. apply elem_of_union.
  destruct (pickled_set_bounds pending ps m Hok) as [Hlow _].
  destruct (decide (digest ip ∈ pickled_set ps m)) as [Hpick|Hpick].
  - left. by apply results_complete.
  - right. apply (agg_inv_resolved table); [done..|].
    intros Hrem. by apply Hpick, Hlow.
Qed.

(** Once a completion leaves nothing pending, the loop is left and the
    last line printed is the one of line 99. *)
Lemma phase2_from_stop digest completed ps :
  remaining (p_run ps) ≠ ∅ →
  remaining (p_run (flow_state (for_each completed (phase2_body digest) ps))) = ∅ →
  ∃ ps', for_each completed (phase2_body digest) ps = Stop ps' ∧
         last (console (p_run ps')) = Some "All hashes cracked!".
Proof.
  revert ps. induction completed as [|[f m] completed IH]; intros ps Hne Hempty.
  { by destruct Hne. }
  cbn [for_each] in *.
  destruct (phase2_body_cases digest f m ps) as [[Hnow Hb]|[Hlater Hb]];
    rewrite Hb in *; cbn [flow_then flow_state] in *.
  - eexists. split; [done|]. cbn [p_run run_print console]. apply last_snoc.
  - by apply IH.
Qed.


Lemma entries_merge (Q : string → string → Prop) st res :
  (∀ h ip, all_results st !! h = Some ip → Q h ip) →
  (∀ h ip, res !! h = Some ip → Q h ip) →
  ∀ h ip, all_results (merge st res) !! h = Some ip → Q h ip.
Proof.
  intros Hst Hres h ip. unfold merge; simpl.
  intros [?|[_ ?]]%lookup_union_Some_raw; eauto.
Qed.

Lemma phase1_loop_entries digest (Q : string → string → Prop) ranges st :
  (∀ start end_ targets h ip, (start, end_) ∈ ranges →
     results (crack_range digest start end_ targets None) !! h = Some ip →
     Q h ip) →
  (∀ h ip, all_results st !! h = Some ip → Q h ip) →
  ∀ h ip, all_results (phase1_loop digest ranges st) !! h = Some ip → Q h ip.
Proof.
  intros Hscan. unfold phase1_loop.
  apply (for_each_inv (λ st', ∀ h ip, all_results st' !! h = Some ip → Q h ip)).
  intros [start end_] st' Hin Hst'. unfold phase1_body.
  case_decide; [done|]. cbn [flow_state].
  apply entries_merge; [done|]. intros h ip. by apply Hscan.
Qed.

Lemma phase2_loop_entries digest (Q : string → string → Prop) completed st :
  (∀ f m targets h ip, (f, m) ∈ completed →
     future_result digest f targets !! h = Some ip → Q h ip) →
  (∀ h ip, all_results st !! h = Some ip → Q h ip) →
  ∀ h ip, all_results (phase2_loop digest completed st) !! h = Some ip → Q h ip.
Proof.
  intros Hscan Hst. unfold phase2_loop, phase2_pool.
  apply (for_each_inv
           (λ ps, ∀ h ip, all_results (p_run ps) !! h = Some ip → Q h ip));
    [|done].
  intros [f m] ps Hin Hps h ip.
  destruct (phase2_body_step digest f m ps) as (-> & _).
  intros [Hres|[_ Hold]]%lookup_union_Some_raw; [|by apply Hps].
  by eapply Hscan.
Qed.

Lemma candidates_mono start_a end_a ip :
  0 ≤ start_a → end_a ≤ 256 →
  ip ∈ candidates start_a end_a → ip ∈ candidates 0 256.
Proof.
  intros ?? (a & b & c & d & ? & ? & ? & ? & ->)%elem_of_candidates.
  apply elem_of_candidates. exists a, b, c, d. split_and!; try done; lia.
Qed.

Lemma common_ranges_bounds start end_ :
  (start, end_) ∈ common_ranges → 0 ≤ start ∧ end_ ≤ 256.
Proof.
  unfold common_ranges. intros Hin.
  repeat (apply elem_of_cons in Hin as [[= -> ->]|Hin]; [lia|]).
  by apply elem_of_nil in Hin.
Qed.

Lemma submit_all_bounds f :
  f ∈ submit_all → 0 ≤ f_start f ∧ f_end f ≤ 256.
Proof.
  rewrite submit_all_chunks.
  intros (k & -> & Hk%elem_of_seqZ)%list_elem_of_fmap. simpl. lia.
Qed.

(** The chunk of Phase 2 that holds a given candidate. *)
Lemma submit_all_covers ip :
  ip ∈ candidates 0 256 →
  ∃ f, f ∈ submit_all ∧ ip ∈ candidates (f_start f) (f_end f).
Proof.
  intros (a & b & c & d & Ha & Hb & Hc & Hd & ->)%elem_of_candidates.
  pose proof (Z.div_mod a 16 ltac:(lia)).
  pose proof (Z.mod_pos_bound a 16 ltac:(lia)).
  exists (Future (16 * (a `div` 16)) (16 * (a `div` 16) + 16)).
  split.
  - rewrite submit_all_chunks. apply list_elem_of_fmap.
    exists (a `div` 16). split; [done|]. apply elem_of_seqZ. lia.
  - apply elem_of_candidates. exists a, b, c, d.
    cbn [f_start f_end]. split_and!; try done; lia.
Qed.

Lemma elem_of_keys table (i : nat) h desc :
  table !! i = Some (h, desc) → h ∈ keys table.
Proof.
  intros Hi. apply elem_of_list_to_set, list_elem_of_fmap.
  exists (h, desc). split; [done|]. by eapply list_elem_of_lookup_2.
Qed.

(** ** Phase 2 as [main] runs it *)

Lemma phase2_inv digest num_cpus as_completed table st :
  agg_inv table st → agg_inv table (phase2 digest num_cpus as_completed st).
Proof.
  intros Hinv. unfold phase2. case_decide; [done|].
  by apply phase2_loop_inv.
Qed.

Lemma completed_submitted (as_completed : list future → list (future * nat))
    (l : list future) f m :
  (∀ l, (as_completed l).*1 ≡ₚ l) → (f, m) ∈ as_completed l → f ∈ l.
Proof.
  intros Hperm Hin. rewrite <-(Hperm l).
  apply list_elem_of_fmap. by exists (f, m).
Qed.

Lemma submitted_completed (as_completed : list future → list (future * nat))
    (l : list future) f :
  (∀ l, (as_completed l).*1 ≡ₚ l) → f ∈ l → ∃ m, (f, m) ∈ as_completed l.
Proof.
  intros Hperm Hin. rewrite <-(Hperm l) in Hin.
  apply list_elem_of_fmap in Hin as ([g m] & -> & Hin). by exists m.
Qed.

Lemma phase2_entries digest num_cpus as_completed
    (Q : string → string → Prop) st :
  (∀ f m targets h ip, (f, m) ∈ as_completed submit_all →
     future_result digest f targets !! h = Some ip → Q h ip) →
  (∀ h ip, all_results st !! h = Some ip → Q h ip) →
  ∀ h ip, all_results (phase2 digest num_cpus as_completed st) !! h = Some ip →
          Q h ip.
Proof.
  intros Hscan Hst. unfold phase2. case_decide; [done|].
  apply phase2_loop_entries; [|done].
  intros f m targets h ip Hf. by eapply Hscan.
Qed.

(** A digest of the table with a preimage among the dotted quads is
    resolved when Phase 2 is over. *)
Lemma phase2_complete digest num_cpus as_completed table st ip :
  (∀ l, (as_completed l).*1 ≡ₚ l) → agg_inv table st →
  ip ∈ candidates 0 256 → digest ip ∈ keys table →
  digest ip ∈ dom (all_results (phase2 digest num_cpus as_completed st)).
Proof.
  intros Hperm Hinv Hip Hkey.
  pose proof (phase2_inv digest num_cpus as_completed table st Hinv) as Hfin.
  unfold phase2 in *. destruct (decide (remaining st = ∅)) as [Hempty|Hne].
  { apply (agg_inv_resolved table); [done..|].
    rewrite Hempty. apply not_elem_of_empty. }
  destruct (submit_all_covers ip Hip) as (f & Hf & Hipf).
  destruct (submitted_completed as_completed submit_all f Hperm Hf) as [m Hfm].
  unfold phase2_loop, phase2_pool in *.
  destruct (phase2_from_complete digest table (remaining st)
              (as_completed (futures (phase2_dispatch num_cpus st)))
              (pool_init (phase2_dispatch num_cpus st)) f m ip)
    as [Hdone|Hdom]; try done.
  - exact (pool_ok_init (phase2_dispatch num_cpus st)).
  - destruct Hinv as [_ <-]. apply union_subseteq_l.
  - apply (agg_inv_resolved table); [done..|].
    rewrite Hdone. apply not_elem_of_empty.
Qed.

(** The entries of the final result map come from scans of dotted quads. *)
Lemma final_entries digest num_cpus as_completed table h ip :
  (∀ l, (as_completed l).*1 ≡ₚ l) →
  all_results (phase2 digest num_cpus as_completed
                 (phase1_loop digest common_ranges (main_init table)))
    !! h = Some ip →
  digest ip = h ∧ ip ∈ candidates 0 256.
Proof.
  intros Hperm.
  apply (phase2_entries digest num_cpus as_completed
           (λ h ip, digest ip = h ∧ ip ∈ candidates 0 256)).
  - intros f m targets h' ip' Hf Hres.
    apply (completed_submitted as_completed) in Hf; [|done].
    apply submit_all_bounds in Hf as [? ?].
    apply results_candidate in Hres as (_ & ? & ?).
    split; [done|]. by eapply candidates_mono.
  - apply (phase1_loop_entries digest
             (λ h ip, digest ip = h ∧ ip ∈ candidates 0 256)).
    + intros start end_ targets h' ip' [? ?]%common_ranges_bounds Hres.
      apply results_candidate in Hres as (_ & ? & ?).
      split; [done|]. by eapply candidates_mono.
    + intros h' ip'. cbn [main_init all_results]. by rewrite lookup_empty.
Qed.

(** Whatever the pool does, every entry maps a digest to a string with
    that digest. *)
Lemma final_entries_digest digest num_cpus as_completed table h ip :
  all_results (phase2 digest num_cpus as_completed
                 (phase1_loop digest common_ranges (main_init table)))
    !! h = Some ip →
  digest ip = h.
Proof.
  apply (phase2_entries digest num_cpus as_completed (λ h ip, digest ip = h)).
  - intros f m targets h' ip' _. apply results_digest.
  - apply (phase1_loop_entries digest (λ h ip, digest ip = h)).
    + intros start end_ targets h' ip' _. apply results_digest.
    + intros h' ip'. cbn [main_init all_results]. by rewrite lookup_empty.
Qed.

(** ** The claims about the aggregator and the driver *)

(** C2.  Whatever order the futures complete in, the aggregator's
    invariant (the pending set and the keys of the accumulated results are
    disjoint and together are the keys of the target table) holds after
    any number [k] of iterations of the Phase 1 loop, after any number [k]
    of iterations of the Phase 2 loop, and in the state [main] ends in. *)
Theorem aggregator_invariant digest (num_cpus : Z)
    (as_completed : list future → list (future * nat))
    (table : list (string * string)) :
  (∀ l, (as_completed l).*1 ≡ₚ l) →
  (∀ k : nat,
     agg_inv table
       (phase1_loop digest (take k common_ranges) (main_init table))) ∧
  (∀ k : nat,
     agg_inv table
       (phase2_loop digest
          (take k (as_completed (futures
             (phase2_dispatch num_cpus
                (phase1_loop digest common_ranges (main_init table))))))
          (phase2_dispatch num_cpus
             (phase1_loop digest common_ranges (main_init table))))) ∧
  (∃ st, main digest num_cpus as_completed table = Ok st ∧ agg_inv table st).
Proof.
  intros _.
  pose proof (phase1_loop_inv digest table common_ranges) as Hinv1.
  set (st1 := phase1_loop digest common_ranges (main_init table)) in *.
  split_and!.
  - intros k. apply phase1_loop_inv.
  - intros k. by apply phase2_loop_inv.
  - destruct (main_ok digest num_cpus as_completed table) as (rows & -> & _).
    eexists; split; [done|]. fold st1.
    change (agg_inv table (phase2 digest num_cpus as_completed st1)).
    by apply phase2_inv.
Qed.


(** C8.  Merging two worker results with disjoint key sets into the
    aggregate gives the same state, hence the same result map, in either
    order. *)
Theorem merge_commutes (st : run_state) (res1 res2 : gmap string string) :
  dom res1 ## dom res2 →
  merge (merge st res1) res2 = merge (merge st res2) res1.
Proof.
  intros Hdisj%map_disjoint_dom. unfold merge; simpl. f_equal.
  - rewrite !(assoc_L (∪)). f_equal. symmetry. by apply map_union_comm.
  - apply set_eq. intros h. rewrite !elem_of_difference. intuition.
Qed.

(** C7.  [main] ends without raising, and after the three header lines
    its console ends with one line per row of the target table, in the
    table's order: for the row [(h, desc)] the line [desc: ip] when the
    final result map has [h -> ip], otherwise [desc: NOT FOUND (hash: h)]. *)
Theorem final_report digest (num_cpus : Z)
    (as_completed : list future → list (future * nat))
    (table : list (string * string)) :
  ∃ st before rows,
    main digest num_cpus as_completed table = Ok st ∧
    console st = before ++ report_header ++ rows ∧
    length rows = length table ∧
    ∀ (i : nat) h desc, table !! i = Some (h, desc) →
      rows !! i = Some
        match all_results st !! h with
        | Some ip => "  " +:+ desc +:+ ": " +:+ ip
        | None => "  " +:+ desc +:+ ": NOT FOUND (hash: " +:+ h +:+ ")"
        end.
Proof.
  destruct (main_ok digest num_cpus as_completed table)
    as (rows & Hmain & Hlen & Hrows).
  eexists _, _, rows. split_and!; [exact Hmain|done..].
Qed.


(** ** The program on concrete inputs *)

Example ip_str_10_0_0_1 : ip_str 10 0 0 1 = "10.0.0.1".
Proof. vm_compute. reflexivity. Qed.


Example sha1_10_0_0_1 :
  sha1_hex "10.0.0.1" = "ed1665c190146c4dcb8eb871f1d2499d61bb293b".
Proof. vm_compute. reflexivity. Qed.

(** A scan of [10.x.x.x] for the digest of [10.0.0.1] hashes [10.0.0.0]
    and [10.0.0.1], prints the match and returns. *)
Example crack_range_10_0_0_1 :
  crack_range sha1_hex 10 11 {[sha1_hex "10.0.0.1"]} None
  = ScanState
      {["ed1665c190146c4dcb8eb871f1d2499d61bb293b" := "10.0.0.1"]}
      ["  FOUND: 10.0.0.1 -> ed1665c190146c4dcb8eb871f1d2499d61bb293b"
         +:+ " (ed1665c190146c4dcb8eb871f1d2499d61bb293b)"]
      ["10.0.0.0"; "10.0.0.1"].
Proof. vm_compute. reflexivity. Qed.

(** The run on the one-row table [{sha1("10.0.0.1"): "X"}]: the first
    listed range resolves it, Phase 2 submits nothing, and the report
    has the line [X: 10.0.0.1]. *)
Example main_single_target :
  match main sha1_hex 8 eager_pool [(sha1_hex "10.0.0.1", "X")] with
  | Ok st => Some (all_results st !! sha1_hex "10.0.0.1",
                   size (remaining st), length (futures st), last (console st))
  | Raise _ => None
  end
  = Some (Some "10.0.0.1", 0%nat, 0%nat, Some "  X: 10.0.0.1").
Proof. vm_compute. reflexivity. Qed.

Lemma string_of_list_ascii_length l :
  String.length (string_of_list_ascii l) = length l.
Proof. induction l as [|c l IH]; simpl; by rewrite ?IH. Qed.

(** A SHA-1 digest in hexadecimal has forty characters. *)
Lemma hexdigest_length msg : String.length (SHA1.hexdigest msg) = 40%nat.
Proof.
  unfold SHA1.hexdigest. destruct (SHA1.digest _) as [a b c d e].
  rewrite string_of_list_ascii_length, !length_app. reflexivity.
Qed.

Lemma sha1_hex_length s : String.length (sha1_hex s) = 40%nat.
Proof. apply hexdigest_length. Qed.





Lemma eager_pool_perm (l : list future) : (eager_pool l).*1 ≡ₚ l.
Proof.
  unfold eager_pool. rewrite <-list_fmap_compose, list_fmap_id.
  apply reverse_Permutation.
Qed.



(** ** Instances of the claims *)

(** C1 at [X = 10.0.0.1] in the sub-range [[10, 11)], with the identity
    as digest, under which no two candidates share a digest. *)
Lemma crack_range_finds_witness :
  (0 ≤ 10 < 11 ∧ 11 ≤ 256) ∧
  (∀ y, y ∈ candidates 10 11 → y = ip_str 10 0 0 1 → y = ip_str 10 0 0 1) ∧
  results (crack_range (λ s, s) 10 11 {[ip_str 10 0 0 1]} None)
  = {[ip_str 10 0 0 1 := ip_str 10 0 0 1]}.
Proof.
  split; [lia|]. split; [intros y _ Hy; exact Hy|].
  apply (crack_range_finds (λ s, s) 10 11 10 0 0 1 None); try lia.
  intros y _ Hy. exact Hy.
Defined.

(** C2 for the program's table, with a pool that finishes the futures in
    the reverse of the order of submission. *)
Lemma aggregator_invariant_witness :
  (∀ l : list future, (eager_pool l).*1 ≡ₚ l) ∧
  ∃ st, main sha1_hex 8 eager_pool TARGET_HASHES = Ok st ∧
        agg_inv TARGET_HASHES st.
Proof.
  split; [apply eager_pool_perm|].
  destruct (aggregator_invariant sha1_hex 8 eager_pool TARGET_HASHES
              eager_pool_perm) as (_ & _ & Hend).
  exact Hend.
Defined.


(** C4 with the one target [sha1("10.0.0.1")] in [[10, 11)], and with no
    target in [[0, 1)]. *)
Lemma crack_range_early_exit_witness :
  ({[sha1_hex "10.0.0.1"]} : gset string) ≠ ∅ ∧
  size ({[sha1_hex "10.0.0.1"]} : gset string) = 1%nat ∧
  (∀ (i : nat) x,
     hashed (crack_range sha1_hex 10 11 {[sha1_hex "10.0.0.1"]} None)
       !! i = Some x →
     sha1_hex x ∈ ({[sha1_hex "10.0.0.1"]} : gset string) →
     S i = length (hashed (crack_range sha1_hex 10 11
                             {[sha1_hex "10.0.0.1"]} None))) ∧
  hashed (crack_range sha1_hex 0 1 ∅ None) = candidates 0 1.
Proof.
  destruct (crack_range_early_exit sha1_hex 10 11
              {[sha1_hex "10.0.0.1"]} None) as (_ & _ & _ & Hone & _).
  destruct (crack_range_early_exit sha1_hex 0 1 ∅ None)
    as (_ & _ & _ & _ & Hnone).
  split_and!.
  - apply non_empty_singleton_L.
  - apply size_singleton.
  - apply Hone, size_singleton.
  - apply Hnone. reflexivity.
Defined.

(** C4 as stated fails: with an empty snapshot the count equals the
    number of targets from the start, and yet the scanner hashes every
    candidate of the sub-range, here the 16777216 candidates [0.b.c.d]. *)
Lemma crack_range_early_exit_counterexample :
  size (results scan_init) = size (∅ : gset string) ∧
  hashed (crack_range sha1_hex 0 1 ∅ None) ≠ [] ∧
  Z.of_nat (length (hashed (crack_range sha1_hex 0 1 ∅ None))) = 16777216 ∧
  hashed (crack_range sha1_hex 0 1 ∅ None) !! 0%nat = Some "0.0.0.0".
Proof.
  destruct (crack_range_no_targets sha1_hex 0 1 None) as [Hlog _].
  pose proof (length_candidates 0 1) as Hlen. rewrite <-Hlog in Hlen.
  pose proof (lookup_candidates 0 1 0 0 0 0) as Hfirst. rewrite <-Hlog in Hfirst.
  split_and!.
  - reflexivity.
  - intros Hnil. rewrite Hnil in Hlen. discriminate Hlen.
  - exact Hlen.
  - apply Hfirst; lia.
Qed.

(** C5 for the whole space [[0, 256)]. *)
Lemma candidates_enumeration_witness :
  0 < 256 ∧
  Z.of_nat (length (candidates 0 256)) = 4294967296 ∧
  NoDup (candidates 0 256).
Proof.
  destruct (candidates_enumeration 0 256 ltac:(lia)) as (Hlen & Hnd & _).
  split_and!; [lia| |exact Hnd].
  rewrite Hlen. reflexivity.
Defined.



(** C8: two results for different digests. *)
Lemma merge_commutes_witness :
  dom ({["977b6967a5717fef69c2772af31accceaa53cc73" := "10.0.0.1"]}
         : gmap string string)
  ## dom ({["f2bc41c32c7265b49cfa857f24b09529a549641f" := "192.168.1.1"]}
            : gmap string string) ∧
  merge (merge (RunState ∅ (keys TARGET_HASHES) [] [])
               {["977b6967a5717fef69c2772af31accceaa53cc73" := "10.0.0.1"]})
        {["f2bc41c32c7265b49cfa857f24b09529a549641f" := "192.168.1.1"]}
  = merge (merge (RunState ∅ (keys TARGET_HASHES) [] [])
                 {["f2bc41c32c7265b49cfa857f24b09529a549641f" := "192.168.1.1"]})
          {["977b6967a5717fef69c2772af31accceaa53cc73" := "10.0.0.1"]}.
Proof.
  assert (dom ({["977b6967a5717fef69c2772af31accceaa53cc73" := "10.0.0.1"]}
                 : gmap string string)
          ## dom ({["f2bc41c32c7265b49cfa857f24b09529a549641f" := "192.168.1.1"]}
                    : gmap string string)) as Hdisj.
  { rewrite !dom_singleton_L. apply disjoint_singleton_l.
    intros Heq%elem_of_singleton. discriminate Heq. }
  split; [exact Hdisj|].
  apply (merge_commutes _ _ _ Hdisj).
Defined.

(** C9 for the empty sub-range [[11, 11)]. *)
Lemma empty_range_scans_nothing_witness :
  11 >= 11 ∧
  candidates 11 11 = [] ∧
  results (crack_range sha1_hex 11 11 (keys TARGET_HASHES) None) = ∅ ∧
  hashed (crack_range sha1_hex 11 11 (keys TARGET_HASHES) None) = [] ∧
  out (crack_range sha1_hex 11 11 (keys TARGET_HASHES) None) = [].
Proof.
  split; [lia|].
  apply (empty_range_scans_nothing sha1_hex 11 11 (keys TARGET_HASHES) None).
  lia.
Defined.

(** C10 for a scan of [[10, 11)] for the program's targets. *)
Lemma crack_range_sound_witness :
  (0 ≤ 10 ≤ 11 ∧ 11 ≤ 256) ∧
  ∀ h ip,
    results (crack_range sha1_hex 10 11 (keys TARGET_HASHES) None) !! h
    = Some ip →
    h ∈ keys TARGET_HASHES ∧ sha1_hex ip = h ∧
    ∃ a b c d, 10 ≤ a < 11 ∧ 0 ≤ a < 256 ∧ 0 ≤ b < 256 ∧
               0 ≤ c < 256 ∧ 0 ≤ d < 256 ∧ ip = ip_str a b c d.
Proof.
  split; [lia|].
  destruct (crack_range_sound sha1_hex 10 11 (keys TARGET_HASHES) None
              ltac:(lia)) as [Hsound _].
  exact Hsound.
Defined.

(** ** Further properties of the scanner *)

Lemma matches_snoc digest targets l x r :
  matches digest targets (l ++ [x]) r
  = if decide (digest x ∈ targets)
    then <[digest x := x]> (matches digest targets l r)
    else matches digest targets l r.
Proof. unfold matches. by rewrite fold_left_app. Qed.

(** The candidate stored for a digest is the last one hashed with it. *)
Lemma matches_last digest targets l h ip :
  matches digest targets l ∅ !! h = Some ip →
  ∃ p q, l = p ++ ip :: q ∧ digest ip = h ∧ Forall (λ y, digest y ≠ h) q.
Proof.
  induction l as [|x l IH] using rev_ind.
  { simpl. by rewrite lookup_empty. }
  rewrite matches_snoc. intros Hip.
  destruct (decide (digest x ∈ targets ∧ digest x = h)) as [[Hx <-]|Hne].
  - rewrite decide_True, lookup_insert_eq in Hip by done. injection Hip as <-.
    exists l, []. by split_and!.
  - assert (matches digest targets l ∅ !! h = Some ip) as Hl.
    { case_decide; [|done]. rewrite lookup_insert_ne in Hip; [done|].
      intros Heq. apply Hne. by split. }
    pose proof Hl as [Hempty|(_ & _ & Ht)]%found_sound.
    { by rewrite lookup_empty in Hempty. }
    destruct (IH Hl) as (p & q & -> & Hd & Hq).
    exists p, (q ++ [x]). rewrite <-app_assoc. split_and!; [done..|].
    apply Forall_app. split; [done|]. apply Forall_singleton.
    intros Hx. apply Hne. split; [|done]. by rewrite Hx.
Qed.

Lemma core_of_eq s1 s2 :
  core_of s1 = core_of s2 → results s1 = results s2 ∧ hashed s1 = hashed s2.
Proof. destruct s1, s2. unfold core_of. simpl. by intros [= -> ->]. Qed.

(** A loop whose every iteration only extends the log and goes on. *)
Lemma for_each_log {A} (xs : list A) (L : A → list string)
    (body : A → scan_state → flow scan_state) (s : scan_state) :
  (∀ x s, x ∈ xs →
     body x s = Next (ScanState (results s) (out s) (hashed s ++ L x))) →
  for_each xs body s
  = Next (ScanState (results s) (out s) (hashed s ++ (xs ≫= L))).
Proof.
  revert s. induction xs as [|x xs IH]; intros s Hbody.
  { destruct s. simpl. by rewrite app_nil_r. }
  cbn [for_each]. rewrite Hbody by left. cbn [flow_then].
  rewrite IH by (intros y t Hy; apply Hbody; by right).
  cbn [results out hashed]. by rewrite bind_cons, app_assoc.
Qed.

Lemma crack_octet_fruitless digest targets target_dict a s :
  (∀ b c d, 0 ≤ b < 256 → 0 ≤ c < 256 → 0 ≤ d < 256 →
            digest (ip_str a b c d) ∉ targets) →
  crack_octet digest targets target_dict a s
  = Next (ScanState (results s)
            (out s ++ ["  Completed range " +:+ pretty a +:+ ".x.x.x"])
            (hashed s ++ (b ← range 0 256; c ← range 0 256; d ← range 0 256;
                          [ip_str a b c d]))).
Proof.
  intros Hno. unfold crack_octet.
  rewrite (for_each_log _ (λ b, c ← range 0 256; d ← range 0 256;
                                [ip_str a b c d])); [done|].
  intros b s1 Hb%elem_of_range.
  apply (for_each_log _ (λ c, d ← range 0 256; [ip_str a b c d])).
  intros c s2 Hc%elem_of_range.
  apply (for_each_log _ (λ d, [ip_str a b c d])).
  intros d s3 Hd%elem_of_range.
  unfold crack_body. cbn [results out hashed].
  by rewrite decide_False by auto.
Qed.

Lemma crack_loop_fruitless digest targets target_dict (xs : list Z) s :
  (∀ a b c d, a ∈ xs → 0 ≤ b < 256 → 0 ≤ c < 256 → 0 ≤ d < 256 →
              digest (ip_str a b c d) ∉ targets) →
  for_each xs (crack_octet digest targets target_dict) s
  = Next (ScanState (results s)
            (out s ++ ((λ a, "  Completed range " +:+ pretty a +:+ ".x.x.x")
                         <$> xs))
            (hashed s ++ (a ← xs; b ← range 0 256; c ← range 0 256;
                          d ← range 0 256; [ip_str a b c d]))).
Proof.
  revert s. induction xs as [|a xs IH]; intros s Hno.
  { destruct s. simpl. by rewrite !app_nil_r. }
  cbn [for_each]. rewrite crack_octet_fruitless
    by (intros b c d; apply Hno; left).
  cbn [flow_then]. rewrite IH by (intros a' b c d Ha'; apply Hno; by right).
  cbn [results out hashed].
  by rewrite bind_cons, fmap_cons, <-!app_assoc.
Qed.

Lemma range_app start mid stop :
  start ≤ mid ≤ stop → range start stop = range start mid ++ range mid stop.
Proof.
  intros. unfold range.
  replace (stop - start) with ((mid - start) + (stop - mid)) by lia.
  rewrite seqZ_app by lia. do 2 f_equal; lia.
Qed.

Lemma candidates_app start mid stop :
  start ≤ mid ≤ stop →
  candidates start stop = candidates start mid ++ candidates mid stop.
Proof.
  intros. unfold candidates.
  by rewrite (range_app start mid stop), bind_app.
Qed.

Lemma candidates_chunks (n : nat) :
  (((λ k, Future (16 * k) (16 * k + 16)) <$> seqZ 0 (Z.of_nat n))
     ≫= λ f, candidates (f_start f) (f_end f))
  = candidates 0 (16 * Z.of_nat n).
Proof.
  induction n as [|n IH].
  { unfold candidates. by rewrite (range_empty 0 (16 * Z.of_nat 0)) by lia. }
  rewrite seqZ_S, fmap_app, bind_app, IH. cbn [fmap list_fmap].
  rewrite bind_singleton. cbn [f_start f_end].
  rewrite (candidates_app 0 (16 * Z.of_nat n) (16 * Z.of_nat (S n))) by lia.
  do 2 f_equal; lia.
Qed.

(** X1.  Completeness of a scan: when a candidate [a.b.c.d] of the
    sub-range hashes to one of the targets, that target is a key of the
    returned dict, and the candidate stored for it hashes to it. *)
Theorem crack_range_complete digest (start_a end_a a b c d : Z)
    (targets : gset string) (target_dict : option (gmap string string)) :
  start_a ≤ a < end_a → 0 ≤ b < 256 → 0 ≤ c < 256 → 0 ≤ d < 256 →
  digest (ip_str a b c d) ∈ targets →
  ∃ ip,
    results (crack_range digest start_a end_a targets target_dict)
      !! digest (ip_str a b c d) = Some ip ∧
    digest ip = digest (ip_str a b c d).
Proof.
  intros Ha Hb Hc Hd Ht.
  assert (ip_str a b c d ∈ candidates start_a end_a) as Hin.
  { apply elem_of_candidates. by exists a, b, c, d. }
  pose proof (results_complete digest start_a end_a targets target_dict _ Hin Ht)
    as [ip Hip]%elem_of_dom.
  exists ip. split; [done|]. by apply results_candidate in Hip as (_ & ? & _).
Qed.

(** X2.  The candidate returned for a digest is the last hashed candidate
    with that digest: when several candidates of the sub-range share a
    target digest, a later one replaces an earlier one. *)
Theorem crack_range_keeps_last digest (start_a end_a : Z)
    (targets : gset string) (target_dict : option (gmap string string)) h ip :
  results (crack_range digest start_a end_a targets target_dict) !! h = Some ip →
  ∃ p q,
    hashed (crack_range digest start_a end_a targets target_dict) = p ++ ip :: q ∧
    digest ip = h ∧ Forall (λ y, digest y ≠ h) q.
Proof.
  destruct (crack_range_run digest start_a end_a targets target_dict)
    as (rest & _ & -> & _).
  apply matches_last.
Qed.

(** X3.  The optional [target_dict] only feeds the printed descriptions:
    the returned dict and the candidates hashed are the same for every
    [target_dict]. *)
Theorem crack_range_labels_only_print digest (start_a end_a : Z)
    (targets : gset string) (td1 td2 : option (gmap string string)) :
  results (crack_range digest start_a end_a targets td1)
  = results (crack_range digest start_a end_a targets td2) ∧
  hashed (crack_range digest start_a end_a targets td1)
  = hashed (crack_range digest start_a end_a targets td2).
Proof.
  apply core_of_eq. rewrite !crack_range_core. reflexivity.
Qed.

(** X4.  A scan of a sub-range none of whose candidates hashes to a
    target returns the empty dict after hashing every candidate, and
    prints exactly one progress line per first octet, in ascending
    order. *)
Theorem crack_range_fruitless digest (start_a end_a : Z)
    (targets : gset string) (target_dict : option (gmap string string)) :
  (∀ a b c d, start_a ≤ a < end_a → 0 ≤ b < 256 → 0 ≤ c < 256 → 0 ≤ d < 256 →
              digest (ip_str a b c d) ∉ targets) →
  crack_range digest start_a end_a targets target_dict
  = ScanState ∅
      ((λ a, "  Completed range " +:+ pretty a +:+ ".x.x.x")
         <$> range start_a end_a)
      (candidates start_a end_a).
Proof.
  intros Hno. unfold crack_range.
  rewrite crack_loop_fruitless; [done|].
  intros a b c d Ha%elem_of_range. by apply Hno.
Qed.

(** X5.  The enumeration splits at any first octet: the candidates of
    [[start, end)] are those of [[start, mid)] followed by those of
    [[mid, end)], and two sub-ranges that do not overlap share no
    candidate. *)
Theorem candidates_partition (start mid stop : Z) :
  start ≤ mid ≤ stop →
  candidates start stop = candidates start mid ++ candidates mid stop ∧
  (∀ s, s ∈ candidates start mid → s ∉ candidates mid stop).
Proof.
  intros Hmid. split; [by apply candidates_app|].
  intros s (a & b & c & d & Ha & _ & _ & _ & ->)%elem_of_candidates
           (a' & b' & c' & d' & Ha' & _ & _ & _ & Heq)%elem_of_candidates.
  apply ip_str_inj in Heq as (-> & _). lia.
Qed.

(** X6.  The sixteen chunks submitted in Phase 2, taken in the order of
    submission, enumerate exactly the candidates of the whole space
    [[0, 256)], each once and in the same order. *)
Theorem chunks_enumerate_whole_space :
  (submit_all ≫= λ f, candidates (f_start f) (f_end f)) = candidates 0 256.
Proof.
  rewrite submit_all_chunks. apply (candidates_chunks 16).
Qed.

(** X7.  The candidate string determines its four octets: two quadruples
    of integers with the same text [a.b.c.d] are equal. *)
Theorem ip_str_injective (a b c d a' b' c' d' : Z) :
  ip_str a b c d = ip_str a' b' c' d' ↔ (a, b, c, d) = (a', b', c', d').
Proof.
  split.
  - intros (-> & -> & -> & ->)%ip_str_inj. done.
  - by intros [= -> -> -> ->].
Qed.

(** ** Further properties of the driver *)

(** X8.  Across either loop of the driver the pending set only shrinks
    and no resolved digest is ever dropped from the accumulated results. *)
Theorem pending_only_shrinks digest (ranges : list (Z * Z))
    (completed : list (future * nat)) (st : run_state) :
  (remaining (phase1_loop digest ranges st) ⊆ remaining st ∧
   dom (all_results st) ⊆ dom (all_results (phase1_loop digest ranges st))) ∧
  (remaining (phase2_loop digest completed st) ⊆ remaining st ∧
   dom (all_results st) ⊆ dom (all_results (phase2_loop digest completed st))).
Proof. split; [apply phase1_loop_grows|apply phase2_loop_grows]. Qed.

(** X9.  A target digest with a preimage [a.b.c.d] whose first octet lies
    in one of the ranges listed for Phase 1 is resolved by Phase 1: it is
    in the result map with a candidate that hashes to it, and no longer
    pending. *)
Theorem phase1_resolves_listed digest (table : list (string * string))
    (start end_ a b c d : Z) :
  (start, end_) ∈ common_ranges →
  start ≤ a < end_ → 0 ≤ b < 256 → 0 ≤ c < 256 → 0 ≤ d < 256 →
  digest (ip_str a b c d) ∈ keys table →
  (∃ ip, all_results (phase1_loop digest common_ranges (main_init table))
           !! digest (ip_str a b c d) = Some ip ∧
         digest ip = digest (ip_str a b c d)) ∧
  digest (ip_str a b c d)
    ∉ remaining (phase1_loop digest common_ranges (main_init table)).
Proof.
  intros Hrg Ha Hb Hc Hd Hkey.
  assert (digest (ip_str a b c d)
          ∈ dom (all_results (phase1_loop digest common_ranges (main_init table))))
    as Hdom.
  { apply (phase1_loop_resolves digest table common_ranges _ start end_);
      [apply agg_inv_init|done| |done].
    apply elem_of_candidates. by exists a, b, c, d. }
  split.
  - pose proof Hdom as [ip Hip]%elem_of_dom. exists ip. split; [done|].
    revert Hip.
    apply (phase1_loop_entries digest (λ h ip, digest ip = h)).
    + intros s e targets h' ip' _. apply results_digest.
    + intros h' ip'. cbn [main_init all_results]. by rewrite lookup_empty.
  - destruct (phase1_loop_inv digest table common_ranges) as [Hdisj _].
    intros Hpend. by apply (Hdisj _ Hpend).
Qed.

(** X10.  Phase 1 stops issuing ranges as soon as nothing is pending: if
    the pending set is empty after the ranges [l1], the ranges [l2]
    listed after them change nothing, neither the results nor the
    console. *)
Theorem phase1_stops_when_resolved digest (l1 l2 : list (Z * Z))
    (st : run_state) :
  remaining (phase1_loop digest l1 st) = ∅ →
  phase1_loop digest (l1 ++ l2) st = phase1_loop digest l1 st.
Proof.
  unfold phase1_loop. rewrite for_each_app.
  destruct (for_each l1 (phase1_body digest) st) as [s|s];
    cbn [flow_then flow_state]; [|done].
  intros Hempty. by apply phase1_loop_resolved.
Qed.

(** X11.  Phase 2 stops at the first completion that leaves nothing
    pending: the futures that complete later are never merged, and the
    last line printed by the loop is [All hashes cracked!]. *)
Theorem phase2_ignores_stragglers digest (l1 l2 : list (future * nat))
    (st : run_state) :
  remaining st ≠ ∅ → remaining (phase2_loop digest l1 st) = ∅ →
  phase2_loop digest (l1 ++ l2) st = phase2_loop digest l1 st ∧
  last (console (phase2_loop digest l1 st)) = Some "All hashes cracked!".
Proof.
  intros Hne Hempty.
  destruct (phase2_from_stop digest l1 (pool_init st) Hne Hempty)
    as (ps & Hps & Hlast).
  unfold phase2_loop, phase2_pool. rewrite for_each_app, Hps.
  cbn [flow_then flow_state]. by split.
Qed.

(** X12.  When Phase 1 leaves nothing pending, [main] submits no future
    and prints no Phase 2 line: it ends with the results and the console
    of Phase 1 followed by the report, in which every row of the table is
    resolved to a string that hashes to the row's digest. *)
Theorem phase2_skipped_when_resolved digest (num_cpus : Z)
    (as_completed : list future → list (future * nat))
    (table : list (string * string)) :
  remaining (phase1_loop digest common_ranges (main_init table)) = ∅ →
  ∃ st rows,
    main digest num_cpus as_completed table = Ok st ∧
    futures st = [] ∧ remaining st = ∅ ∧
    all_results st
    = all_results (phase1_loop digest common_ranges (main_init table)) ∧
    console st
    = console (phase1_loop digest common_ranges (main_init table))
      ++ report_header ++ rows ∧
    ∀ (i : nat) h desc, table !! i = Some (h, desc) →
      ∃ ip, rows !! i = Some ("  " +:+ desc +:+ ": " +:+ ip) ∧ digest ip = h.
Proof.
  intros Hempty.
  destruct (main_ok digest num_cpus as_completed table)
    as (rows & Hmain & _ & Hrows).
  pose proof (phase1_loop_inv digest table common_ranges) as Hinv.
  pose proof (final_entries_digest digest num_cpus as_completed table) as Hdig.
  revert Hmain Hrows Hdig. unfold phase2. rewrite decide_True by done.
  set (st1 := phase1_loop digest common_ranges (main_init table)) in *.
  intros Hmain Hrows Hdig.
  eexists _, rows. split; [exact Hmain|]. cbn [futures remaining all_results console].
  split_and!; [|done..|].
  - assert (futures st1 = futures (main_init table)) as ->; [|done].
    unfold st1, phase1_loop.
    apply (for_each_inv (λ st', futures st' = futures (main_init table)));
      [|done].
    intros [s e] st' _ Hst'. unfold phase1_body. by case_decide.
  - intros i h desc Hi.
    assert (h ∈ dom (all_results st1)) as [ip Hip]%elem_of_dom.
    { apply (agg_inv_resolved table); [done|by eapply elem_of_keys|].
      rewrite Hempty. apply not_elem_of_empty. }
    exists ip. split; [|by apply Hdig].
    rewrite (Hrows i h desc Hi). by rewrite Hip.
Qed.

(** X13.  Whatever order the futures complete in, every entry [(h, ip)]
    of the result map [main] ends with has [h] in the target table, [ip]
    a dotted quad with all four octets in [[0, 255]], and [h] the digest
    of [ip]. *)
Theorem main_results_sound digest (num_cpus : Z)
    (as_completed : list future → list (future * nat))
    (table : list (string * string)) :
  (∀ l, (as_completed l).*1 ≡ₚ l) →
  ∃ st,
    main digest num_cpus as_completed table = Ok st ∧
    ∀ h ip, all_results st !! h = Some ip →
      h ∈ keys table ∧ digest ip = h ∧
      ∃ a b c d, 0 ≤ a < 256 ∧ 0 ≤ b < 256 ∧ 0 ≤ c < 256 ∧ 0 ≤ d < 256 ∧
                 ip = ip_str a b c d.
Proof.
  intros Hperm.
  destruct (main_ok digest num_cpus as_completed table) as (rows & Hmain & _).
  eexists. split; [exact Hmain|]. cbn [all_results].
  intros h ip Hip.
  destruct (final_entries digest num_cpus as_completed table h ip Hperm Hip)
    as [Hd Hc].
  pose proof (phase2_inv digest num_cpus as_completed table _
                (phase1_loop_inv digest table common_ranges)) as [_ Hunion].
  split_and!; [|done|by apply elem_of_candidates].
  rewrite <-Hunion. apply elem_of_union. right. by apply elem_of_dom.
Qed.

(** X14.  Whatever order the futures complete in, the digests still
    pending when [main] ends are exactly the digests of the table that no
    dotted quad [a.b.c.d] with octets in [[0, 255]] hashes to. *)
Theorem main_resolves_exactly digest (num_cpus : Z)
    (as_completed : list future → list (future * nat))
    (table : list (string * string)) :
  (∀ l, (as_completed l).*1 ≡ₚ l) →
  ∃ st,
    main digest num_cpus as_completed table = Ok st ∧
    ∀ h, h ∈ remaining st ↔
         h ∈ keys table ∧
         ∀ a b c d, 0 ≤ a < 256 → 0 ≤ b < 256 → 0 ≤ c < 256 → 0 ≤ d < 256 →
                    digest (ip_str a b c d) ≠ h.
Proof.
  intros Hperm.
  destruct (main_ok digest num_cpus as_completed table) as (rows & Hmain & _).
  eexists. split; [exact Hmain|]. cbn [remaining].
  pose proof (phase2_inv digest num_cpus as_completed table _
                (phase1_loop_inv digest table common_ranges)) as Hinv.
  pose proof Hinv as [Hdisj Hunion].
  intros h. split.
  - intros Hpend. split.
    { rewrite <-Hunion. apply elem_of_union. by left. }
    intros a b c d Ha Hb Hc Hd <-.
    apply (Hdisj _ Hpend).
    apply (phase2_complete digest num_cpus as_completed table);
      [done|apply phase1_loop_inv| |].
    + apply elem_of_candidates. by exists a, b, c, d.
    + rewrite <-Hunion. apply elem_of_union. by left.
  - intros [Hkey Hno].
    rewrite <-Hunion in Hkey. apply elem_of_union in Hkey as [?|Hdom]; [done|].
    apply elem_of_dom in Hdom as [ip Hip].
    destruct (final_entries digest num_cpus as_completed table h ip Hperm Hip)
      as [Hd (a & b & c & d & ? & ? & ? & ? & ->)%elem_of_candidates].
    by destruct (Hno a b c d).
Qed.

(** X15.  Whatever order the futures complete in, the report line of a
    table row [(h, desc)] is [desc: ip] with [ip] a string that hashes to
    [h] when some dotted quad hashes to [h], and
    [desc: NOT FOUND (hash: h)] when none does. *)
Theorem report_tells_preimages digest (num_cpus : Z)
    (as_completed : list future → list (future * nat))
    (table : list (string * string)) :
  (∀ l, (as_completed l).*1 ≡ₚ l) →
  ∃ st before rows,
    main digest num_cpus as_completed table = Ok st ∧
    console st = before ++ report_header ++ rows ∧
    ∀ (i : nat) h desc, table !! i = Some (h, desc) →
      (∀ a b c d, 0 ≤ a < 256 → 0 ≤ b < 256 → 0 ≤ c < 256 → 0 ≤ d < 256 →
                  digest (ip_str a b c d) = h →
                  ∃ ip, rows !! i = Some ("  " +:+ desc +:+ ": " +:+ ip) ∧
                        digest ip = h) ∧
      ((∀ a b c d, 0 ≤ a < 256 → 0 ≤ b < 256 → 0 ≤ c < 256 → 0 ≤ d < 256 →
                   digest (ip_str a b c d) ≠ h) →
       rows !! i
       = Some ("  " +:+ desc +:+ ": NOT FOUND (hash: " +:+ h +:+ ")")).
Proof.
  intros Hperm.
  destruct (main_ok digest num_cpus as_completed table)
    as (rows & Hmain & _ & Hrows).
  eexists _, _, rows. split; [exact Hmain|]. split; [done|].
  intros i h desc Hi. rewrite (Hrows i h desc Hi). split.
  - intros a b c d Ha Hb Hc Hd <-.
    assert (digest (ip_str a b c d)
            ∈ dom (all_results (phase2 digest num_cpus as_completed
                     (phase1_loop digest common_ranges (main_init table)))))
      as [ip Hip]%elem_of_dom.
    { apply (phase2_complete digest num_cpus as_completed table);
        [done|apply phase1_loop_inv| |by eapply elem_of_keys].
      apply elem_of_candidates. by exists a, b, c, d. }
    exists ip. rewrite Hip. split; [done|].
    by apply (final_entries_digest digest num_cpus as_completed table).
  - intros Hno.
    destruct (all_results _ !! h) as [ip|] eqn:Hip; [|done].
    destruct (final_entries digest num_cpus as_completed table h ip Hperm Hip)
      as [Hd (a & b & c & d & ? & ? & ? & ? & ->)%elem_of_candidates].
    by destruct (Hno a b c d).
Qed.

(** ** The digest function *)

Lemma hex_char_hex x :
  SHA1.hex_char x ∈ list_ascii_of_string "0123456789abcdef".
Proof.
  unfold SHA1.hex_char. cbn [list_ascii_of_string].
  repeat case_match;
    repeat first [apply list_elem_of_here | apply list_elem_of_further].
Qed.

Lemma hex_word_hex x :
  Forall (λ c, c ∈ list_ascii_of_string "0123456789abcdef") (SHA1.hex_word x).
Proof.
  unfold SHA1.hex_word. apply Forall_fmap, Forall_forall.
  intros i _. apply hex_char_hex.
Qed.

Lemma hexdigest_hex msg :
  Forall (λ c, c ∈ list_ascii_of_string "0123456789abcdef")
         (list_ascii_of_string (SHA1.hexdigest msg)).
Proof.
  unfold SHA1.hexdigest. destruct (SHA1.digest _) as [a b c d e].
  rewrite list_ascii_of_string_of_list_ascii, !Forall_app.
  split_and!; apply hex_word_hex.
Qed.

(** Encoding succeeds on a text without surrogates. *)
Lemma encode_from_ok (i : nat) (s : list N) :
  Forall (λ c, is_surrogate c = false) s →
  encode_from i s = Ok (s ≫= utf8_char).
Proof.
  intros Hs. revert i. induction Hs as [|c s Hc Hs IH]; intros i; [done|].
  cbn [encode_from]. by rewrite Hc, IH.
Qed.

(** Encoding raises at the first surrogate. *)
Lemma encode_from_raise (i k : nat) (s : list N) c :
  s !! k = Some c → is_surrogate c = true →
  Forall (λ c, is_surrogate c = false) (take k s) →
  encode_from i s = Raise (UnicodeEncodeError (i + k)).
Proof.
  revert i s. induction k as [|k IH]; intros i [|x s] Hk Hc Hpre;
    try discriminate Hk.
  - injection Hk as ->. cbn [encode_from]. by rewrite Hc, Nat.add_0_r.
  - cbn [take] in Hpre. apply Forall_cons in Hpre as [Hx Hpre].
    cbn [encode_from]. rewrite Hx, (IH (S i) s Hk Hc Hpre).
    by rewrite Nat.add_succ_comm.
Qed.

(** The model's strings hold code points below 256: no surrogates. *)
Lemma code_points_encodable (s : string) :
  Forall (λ c, is_surrogate c = false) (code_points s).
Proof.
  unfold code_points. apply Forall_fmap, Forall_forall. intros a _.
  cbn. pose proof (N_ascii_bounded a) as Hlt.
  unfold is_surrogate. apply andb_false_iff. left. apply N.leb_gt. lia.
Qed.

(** X16.  [compute_hash] on a text: when no code point of the text is a
    surrogate, it returns forty characters, each a digit or a lower-case
    letter from [a] to [f]; when the first surrogate of the text is at
    position [i], it raises [UnicodeEncodeError] at [i]; on a text whose
    code points are all below 256, as every dotted quad is, it returns
    the digest the scanner computes for that text. *)
Theorem compute_hash_format (s : list N) :
  (Forall (λ c, is_surrogate c = false) s →
   ∃ h, compute_hash s = Ok h ∧ String.length h = 40%nat ∧
        Forall (λ c, c ∈ list_ascii_of_string "0123456789abcdef")
               (list_ascii_of_string h)) ∧
  (∀ (i : nat) c, s !! i = Some c → is_surrogate c = true →
     Forall (λ c, is_surrogate c = false) (take i s) →
     compute_hash s = Raise (UnicodeEncodeError i)) ∧
  (∀ t : string, s = code_points t → compute_hash s = Ok (sha1_hex t)).
Proof.
  split_and!.
  - intros Hs. unfold compute_hash, encode_utf8.
    rewrite (encode_from_ok 0 s Hs). eexists. split; [done|].
    split; [apply hexdigest_length|apply hexdigest_hex].
  - intros i c Hi Hc Hpre. unfold compute_hash, encode_utf8.
    by rewrite (encode_from_raise 0 i s c Hi Hc Hpre).
  - intros t ->. unfold compute_hash, encode_utf8.
    by rewrite (encode_from_ok 0 _ (code_points_encodable t)).
Qed.

(** X17.  A row of the table whose key is not forty characters long is
    no SHA-1 digest: [main] reports it as NOT FOUND, whatever the order
    in which the futures complete. *)
Theorem malformed_key_not_found (num_cpus : Z)
    (as_completed : list future → list (future * nat))
    (table : list (string * string)) (i : nat) h desc :
  table !! i = Some (h, desc) → String.length h ≠ 40%nat →
  ∃ st before rows,
    main sha1_hex num_cpus as_completed table = Ok st ∧
    console st = before ++ report_header ++ rows ∧
    rows !! i = Some ("  " +:+ desc +:+ ": NOT FOUND (hash: " +:+ h +:+ ")").
Proof.
  intros Hi Hlen.
  destruct (main_ok sha1_hex num_cpus as_completed table)
    as (rows & Hmain & _ & Hrows).
  eexists _, _, rows. split; [exact Hmain|]. split; [done|].
  rewrite (Hrows i h desc Hi).
  destruct (all_results _ !! h) as [ip|] eqn:Hip; [|done].
  apply final_entries_digest in Hip. destruct Hlen.
  by rewrite <-Hip, sha1_hex_length.
Qed.

(** ** Instances of the further properties *)

Lemma crack_range_complete_witness :
  10 ≤ 10 < 11 ∧
  sha1_hex (ip_str 10 0 0 1)
    ∈ ({[sha1_hex (ip_str 10 0 0 1)]} : gset string) ∧
  ∃ ip,
    results (crack_range sha1_hex 10 11
               {[sha1_hex (ip_str 10 0 0 1)]} None)
      !! sha1_hex (ip_str 10 0 0 1) = Some ip ∧
    sha1_hex ip = sha1_hex (ip_str 10 0 0 1).
Proof.
  split; [lia|]. split; [by apply elem_of_singleton|].
  apply (crack_range_complete sha1_hex 10 11 10 0 0 1); try lia.
  by apply elem_of_singleton.
Defined.

Lemma crack_range_keeps_last_witness :
  results (crack_range sha1_hex 10 11 {[sha1_hex "10.0.0.1"]} None)
    !! "ed1665c190146c4dcb8eb871f1d2499d61bb293b" = Some "10.0.0.1" ∧
  ∃ p q,
    hashed (crack_range sha1_hex 10 11 {[sha1_hex "10.0.0.1"]} None)
    = p ++ "10.0.0.1" :: q ∧
    sha1_hex "10.0.0.1" = "ed1665c190146c4dcb8eb871f1d2499d61bb293b" ∧
    Forall (λ y, sha1_hex y ≠ "ed1665c190146c4dcb8eb871f1d2499d61bb293b") q.
Proof.
  assert (results (crack_range sha1_hex 10 11
                     {[sha1_hex "10.0.0.1"]} None)
            !! "ed1665c190146c4dcb8eb871f1d2499d61bb293b" = Some "10.0.0.1")
    as Hfound by (vm_compute; reflexivity).
  split; [exact Hfound|].
  exact (crack_range_keeps_last sha1_hex 10 11 _ None _ _ Hfound).
Defined.

Lemma crack_range_fruitless_witness :
  (∀ a b c d, 10 ≤ a < 11 → 0 ≤ b < 256 → 0 ≤ c < 256 → 0 ≤ d < 256 →
              sha1_hex (ip_str a b c d) ∉ ({["deadbeef"]} : gset string)) ∧
  crack_range sha1_hex 10 11 {["deadbeef"]} None
  = ScanState ∅
      ((λ a, "  Completed range " +:+ pretty a +:+ ".x.x.x") <$> range 10 11)
      (candidates 10 11).
Proof.
  assert (∀ a b c d, 10 ≤ a < 11 → 0 ≤ b < 256 → 0 ≤ c < 256 → 0 ≤ d < 256 →
            sha1_hex (ip_str a b c d) ∉ ({["deadbeef"]} : gset string))
    as Hno.
  { intros a b c d _ _ _ _ Hin%elem_of_singleton.
    apply (f_equal String.length) in Hin.
    rewrite sha1_hex_length in Hin. discriminate Hin. }
  split; [exact Hno|].
  exact (crack_range_fruitless sha1_hex 10 11 {["deadbeef"]} None Hno).
Defined.

Lemma candidates_partition_witness :
  0 ≤ 16 ≤ 256 ∧ candidates 0 256 = candidates 0 16 ++ candidates 16 256.
Proof.
  split; [lia|].
  destruct (candidates_partition 0 16 256 ltac:(lia)) as [Happ _].
  exact Happ.
Defined.

Lemma phase1_resolves_listed_witness :
  (10, 11) ∈ common_ranges ∧
  sha1_hex (ip_str 10 0 0 1)
    ∈ keys [(sha1_hex (ip_str 10 0 0 1), "X")] ∧
  sha1_hex (ip_str 10 0 0 1)
    ∉ remaining (phase1_loop sha1_hex common_ranges
                   (main_init [(sha1_hex (ip_str 10 0 0 1), "X")])).
Proof.
  assert ((10, 11) ∈ common_ranges) as Hrg by left.
  assert (sha1_hex (ip_str 10 0 0 1)
            ∈ keys [(sha1_hex (ip_str 10 0 0 1), "X")]) as Hkey.
  { apply elem_of_list_to_set. left. }
  split; [exact Hrg|]. split; [exact Hkey|].
  destruct (phase1_resolves_listed sha1_hex
              [(sha1_hex (ip_str 10 0 0 1), "X")] 10 11 10 0 0 1 Hrg
              ltac:(lia) ltac:(lia) ltac:(lia) ltac:(lia) Hkey) as [_ Hnot].
  exact Hnot.
Defined.

Lemma phase1_stops_when_resolved_witness :
  remaining (phase1_loop sha1_hex [(10, 11)]
               (main_init [(sha1_hex "10.0.0.1", "X")])) = ∅ ∧
  phase1_loop sha1_hex ([(10, 11)] ++ [(172, 173); (192, 193)])
    (main_init [(sha1_hex "10.0.0.1", "X")])
  = phase1_loop sha1_hex [(10, 11)]
      (main_init [(sha1_hex "10.0.0.1", "X")]).
Proof.
  assert (remaining (phase1_loop sha1_hex [(10, 11)]
                       (main_init [(sha1_hex "10.0.0.1", "X")])) = ∅)
    as Hempty by (vm_compute; reflexivity).
  split; [exact Hempty|].
  exact (phase1_stops_when_resolved sha1_hex [(10, 11)]
           [(172, 173); (192, 193)] _ Hempty).
Defined.

Lemma phase2_ignores_stragglers_witness :
  remaining (RunState ∅ {[sha1_hex "10.0.0.1"]} [] []) ≠ ∅ ∧
  remaining (phase2_loop sha1_hex
               [(Future 10 11, 0%nat)]
               (RunState ∅ {[sha1_hex "10.0.0.1"]} [] [])) = ∅ ∧
  phase2_loop sha1_hex
    ([(Future 10 11, 0%nat)]
     ++ [(Future 0 16, 0%nat)])
    (RunState ∅ {[sha1_hex "10.0.0.1"]} [] [])
  = phase2_loop sha1_hex [(Future 10 11, 0%nat)]
      (RunState ∅ {[sha1_hex "10.0.0.1"]} [] []).
Proof.
  assert (remaining (RunState ∅ {[sha1_hex "10.0.0.1"]} [] []) ≠ ∅)
    as Hne by (cbn [remaining]; apply non_empty_singleton_L).
  assert (remaining (phase2_loop sha1_hex
                       [(Future 10 11, 0%nat)]
                       (RunState ∅ {[sha1_hex "10.0.0.1"]} [] [])) = ∅)
    as Hempty by (vm_compute; reflexivity).
  split; [exact Hne|]. split; [exact Hempty|].
  destruct (phase2_ignores_stragglers sha1_hex
              [(Future 10 11, 0%nat)]
              [(Future 0 16, 0%nat)] _ Hne Hempty)
    as [Hsame _].
  exact Hsame.
Defined.

Lemma phase2_skipped_when_resolved_witness :
  remaining (phase1_loop sha1_hex common_ranges
               (main_init [(sha1_hex "10.0.0.1", "X")])) = ∅ ∧
  ∃ st, main sha1_hex 8 eager_pool [(sha1_hex "10.0.0.1", "X")] = Ok st ∧
        futures st = [] ∧ remaining st = ∅.
Proof.
  assert (remaining (phase1_loop sha1_hex common_ranges
                       (main_init [(sha1_hex "10.0.0.1", "X")])) = ∅)
    as Hempty by (vm_compute; reflexivity).
  split; [exact Hempty|].
  destruct (phase2_skipped_when_resolved sha1_hex 8 eager_pool
              [(sha1_hex "10.0.0.1", "X")] Hempty)
    as (st & rows & Hmain & Hfut & Hrem & _).
  exists st. split; [exact Hmain|]. split; [exact Hfut|exact Hrem].
Defined.

Lemma main_results_sound_witness :
  (∀ l : list future, (eager_pool l).*1 ≡ₚ l) ∧
  ∃ st,
    main sha1_hex 8 eager_pool TARGET_HASHES = Ok st ∧
    ∀ h ip, all_results st !! h = Some ip →
      h ∈ keys TARGET_HASHES ∧ sha1_hex ip = h ∧
      ∃ a b c d, 0 ≤ a < 256 ∧ 0 ≤ b < 256 ∧ 0 ≤ c < 256 ∧ 0 ≤ d < 256 ∧
                 ip = ip_str a b c d.
Proof.
  split; [apply eager_pool_perm|].
  exact (main_results_sound sha1_hex 8 eager_pool TARGET_HASHES
           eager_pool_perm).
Defined.

Lemma main_resolves_exactly_witness :
  (∀ l : list future, (eager_pool l).*1 ≡ₚ l) ∧
  ∃ st,
    main sha1_hex 8 eager_pool TARGET_HASHES = Ok st ∧
    ∀ h, h ∈ remaining st ↔
         h ∈ keys TARGET_HASHES ∧
         ∀ a b c d, 0 ≤ a < 256 → 0 ≤ b < 256 → 0 ≤ c < 256 → 0 ≤ d < 256 →
                    sha1_hex (ip_str a b c d) ≠ h.
Proof.
  split; [apply eager_pool_perm|].
  exact (main_resolves_exactly sha1_hex 8 eager_pool TARGET_HASHES
           eager_pool_perm).
Defined.

Lemma report_tells_preimages_witness :
  (∀ l : list future, (eager_pool l).*1 ≡ₚ l) ∧
  ∃ st before rows,
    main sha1_hex 8 eager_pool [("deadbeef", "Unknown")] = Ok st ∧
    console st = before ++ report_header ++ rows ∧
    rows !! 0%nat = Some "  Unknown: NOT FOUND (hash: deadbeef)".
Proof.
  split; [apply eager_pool_perm|].
  destruct (report_tells_preimages sha1_hex 8 eager_pool
              [("deadbeef", "Unknown")] eager_pool_perm)
    as (st & before & rows & Hmain & Hconsole & Hrows).
  exists st, before, rows. split; [exact Hmain|]. split; [exact Hconsole|].
  destruct (Hrows 0%nat "deadbeef" "Unknown" eq_refl) as [_ Hnone].
  apply Hnone. intros a b c d _ _ _ _ Heq.
  apply (f_equal String.length) in Heq.
  rewrite sha1_hex_length in Heq. discriminate Heq.
Defined.

Lemma compute_hash_format_witness :
  [97%N; 0xD800%N] !! 1%nat = Some 0xD800%N ∧
  is_surrogate 0xD800 = true ∧
  Forall (λ c, is_surrogate c = false) (take 1 [97%N; 0xD800%N]) ∧
  compute_hash [97%N; 0xD800%N] = Raise (UnicodeEncodeError 1).
Proof.
  assert (Forall (λ c, is_surrogate c = false) (take 1 [97%N; 0xD800%N]))
    as Hpre by (apply Forall_singleton; reflexivity).
  split; [reflexivity|]. split; [reflexivity|]. split; [exact Hpre|].
  destruct (compute_hash_format [97%N; 0xD800%N]) as (_ & Hraise & _).
  exact (Hraise 1%nat 0xD800%N eq_refl eq_refl Hpre).
Defined.

Lemma malformed_key_not_found_witness :
  [("deadbeef", "Unknown")] !! 0%nat = Some ("deadbeef", "Unknown") ∧
  String.length "deadbeef" ≠ 40%nat ∧
  ∃ st before rows,
    main sha1_hex 8 eager_pool [("deadbeef", "Unknown")] = Ok st ∧
    console st = before ++ report_header ++ rows ∧
    rows !! 0%nat = Some "  Unknown: NOT FOUND (hash: deadbeef)".
Proof.
  split; [reflexivity|]. split; [discriminate|].
  exact (malformed_key_not_found 8 eager_pool [("deadbeef", "Unknown")] 0
           "deadbeef" "Unknown" eq_refl ltac:(discriminate)).
Defined.
